(** * Vulnerability match store (sentinel/internal/store/matches.go)

    A shallow embedding of the match store of the code-intel sentinel
    service: the version-constraint evaluator, the scan that persists new
    matches, and the query side that turns the rows of a left join back
    into nested match objects.

    Go strings are byte strings and are modelled by [string]; Go [int] is
    modelled by [Z]; a nil slice and an empty slice are both [[]]; a [*string]
    is an [option string]. SQL text is modelled by its relational meaning
    over tables given as lists of records, a nullable column by [option]. *)

From Stdlib Require Import ZArith Ascii String List Bool Lia.
From stdpp Require Import base decidable option list gmap strings sorting.

Local Open Scope string_scope.
Local Open Scope Z_scope.
Local Open Scope list_scope.

(** ** Errors threaded through the store *)

Inductive Error : Type :=
| ErrScanNull          (* database/sql: converting NULL to int is unsupported *)
| ErrNegativeLimit     (* postgres: LIMIT / OFFSET must not be negative *)
| ErrUniqueViolation   (* postgres: duplicate key value violates unique constraint *)
| ErrRelationExists    (* postgres: relation already exists *)
| ErrNoRelation        (* postgres: relation does not exist *)
| ErrStore (code : Z). (* any failure reported by the connection *)

Inductive Result (A : Type) : Type :=
| Ok (a : A)
| Err (e : Error).
Arguments Ok {A} a.
Arguments Err {A} e.

Definition rbind {A B} (r : Result A) (k : A -> Result B) : Result B :=
  match r with
  | Ok a => k a
  | Err e => Err e
  end.

(** ** The Go [strings] package *)

Module GoStrings.

(** [strings.Join(elems, sep)]. *)
Fixpoint Join (elems : list string) (sep : string) : string :=
  match elems with
  | [] => ""
  | [e] => e
  | e :: rest => (e ++ sep ++ Join rest sep)%string
  end.

(** [strings.Split(s, sep)] for a separator of one byte: the pieces of [s]
    between the occurrences of [sep]; [Split("", sep)] is [[""]]. *)
Fixpoint Split1 (s : string) (sep : ascii) : list string :=
  match s with
  | EmptyString => [""]
  | String c rest =>
      if Ascii.eqb c sep then "" :: Split1 rest sep
      else match Split1 rest sep with
           | piece :: pieces => String c piece :: pieces
           | [] => [String c ""]
           end
  end.

End GoStrings.

(** ** The interface of github.com/hashicorp/go-version

  The library is a dependency of the repository, not part of it. What the
  store calls is taken as an interface: [NewVersion], the parser of one
  constraint and the check of one constraint. [NewConstraint] and
  [Constraints.Check] are the library's loops over these. *)

Module GoVersion.

Class Library : Type := {
  Version : Type;
  Constraint : Type;
  (** [version.NewVersion]: [None] is the returned error. *)
  NewVersion : string -> option Version;
  (** the library's parser of one constraint expression *)
  parseSingle : string -> option Constraint;
  (** the [Check] method of one constraint *)
  checkSingle : Constraint -> Version -> bool;
  (** the constraint grammar has a mandatory version token: the empty
      expression is malformed *)
  parseSingle_empty : parseSingle "" = None;
}.

Section Constraints.
Context {L : Library}.

Fixpoint parseAll (vs : list string) : option (list Constraint) :=
  match vs with
  | [] => Some []
  | single :: rest =>
      match parseSingle single with
      | None => None
      | Some c =>
          match parseAll rest with
          | None => None
          | Some cs => Some (c :: cs)
          end
      end
  end.

(** [version.NewConstraint]: split on commas, parse every piece, fail on
    the first malformed one. *)
Definition NewConstraint (v : string) : option (list Constraint) :=
  parseAll (GoStrings.Split1 v ",").

(** [Constraints.Check]: every constraint has to hold. *)
Fixpoint Check (cs : list Constraint) (v : Version) : bool :=
  match cs with
  | [] => true
  | c :: rest => if checkSingle c v then Check rest v else false
  end.

End Constraints.

End GoVersion.

(** ** An implementation of the interface on dotted-decimal versions

    Versions are an optional [v] and decimal segments separated by dots,
    padded with zeros to three segments; a constraint is one of the six
    comparison operators the specification asks of the evaluator (equal,
    not-equal, greater, greater-or-equal, less, less-or-equal; no operator
    means equal) followed by such a version, with optional white space
    around both. go-version accepts more than this: pre-release and build
    suffixes and the pessimistic operator are outside this implementation.
    It is what the evaluator is run on for concrete inputs. *)

Module DecimalVersions.

Definition is_digit (c : ascii) : bool :=
  (48 <=? N_of_ascii c)%N && (N_of_ascii c <=? 57)%N.

(** white space of the regular expression class [\s] *)
Definition is_space (c : ascii) : bool :=
  match N_of_ascii c with
  | 9%N | 10%N | 12%N | 13%N | 32%N => true
  | _ => false
  end.

Fixpoint digits (s : string) (acc : N) : option N :=
  match s with
  | EmptyString => Some acc
  | String c rest =>
      if is_digit c then digits rest (10 * acc + (N_of_ascii c - 48))%N
      else None
  end.

(** [strconv.ParseInt(s, 10, 64)] on a string of digits. *)
Definition ParseInt (s : string) : option Z :=
  match s with
  | EmptyString => None
  | _ =>
      match digits s 0%N with
      | Some n => if (n <? 2 ^ 63)%N then Some (Z.of_N n) else None
      | None => None
      end
  end.

Fixpoint parseSegments (pieces : list string) : option (list Z) :=
  match pieces with
  | [] => Some []
  | p :: rest =>
      match ParseInt p, parseSegments rest with
      | Some n, Some ns => Some (n :: ns)
      | _, _ => None
      end
  end.

Definition pad3 (segments : list Z) : list Z :=
  segments ++ repeat 0 (3 - length segments)%nat.

Definition NewVersion (v : string) : option (list Z) :=
  let body := match v with
              | String "v" rest => rest
              | _ => v
              end in
  option_map pad3 (parseSegments (GoStrings.Split1 body ".")).

Fixpoint allZero (segments : list Z) : bool :=
  match segments with
  | [] => true
  | s :: rest => (s =? 0) && allZero rest
  end.

(** [Version.Compare] on versions without pre-release. *)
Fixpoint Compare (self other : list Z) : comparison :=
  match self, other with
  | [], _ => if allZero other then Eq else Lt
  | _, [] => if allZero self then Eq else Gt
  | lhs :: self', rhs :: other' =>
      match lhs ?= rhs with
      | Eq => Compare self' other'
      | c => c
      end
  end.

Inductive Operator : Type :=
| equal | notEqual | greaterThan | lessThan | greaterThanEqual | lessThanEqual.

Fixpoint trimLeft (s : string) : string :=
  match s with
  | String c rest => if is_space c then trimLeft rest else s
  | EmptyString => s
  end.

Definition trimRight (s : string) : string :=
  string_of_list_ascii
    (rev (list_ascii_of_string
            (trimLeft (string_of_list_ascii (rev (list_ascii_of_string s)))))).

Definition splitOperator (s : string) : Operator * string :=
  match s with
  | String ">" (String "=" rest) => (greaterThanEqual, rest)
  | String "<" (String "=" rest) => (lessThanEqual, rest)
  | String "!" (String "=" rest) => (notEqual, rest)
  | String "=" rest => (equal, rest)
  | String ">" rest => (greaterThan, rest)
  | String "<" rest => (lessThan, rest)
  | _ => (equal, s)
  end.

Definition parseSingle (v : string) : option (Operator * list Z) :=
  let (op, rest) := splitOperator (trimLeft v) in
  option_map (pair op) (NewVersion (trimRight (trimLeft rest))).

Definition checkSingle (c : Operator * list Z) (v : list Z) : bool :=
  match fst c, Compare v (snd c) with
  | equal, Eq => true
  | notEqual, (Lt | Gt) => true
  | greaterThan, Gt => true
  | lessThan, Lt => true
  | greaterThanEqual, (Gt | Eq) => true
  | lessThanEqual, (Lt | Eq) => true
  | _, _ => false
  end.

#[export] Instance library : GoVersion.Library := {|
  GoVersion.Version := list Z;
  GoVersion.Constraint := Operator * list Z;
  GoVersion.NewVersion := NewVersion;
  GoVersion.parseSingle := parseSingle;
  GoVersion.checkSingle := checkSingle;
  GoVersion.parseSingle_empty := eq_refl;
|}.

End DecimalVersions.

(** ** The SQL operators the queries use *)

Module Sql.

(** [string LIKE pattern] with the default escape character: [%] matches
    any run of bytes, [_] any one byte, a backslash makes the next byte of
    the pattern literal. A pattern that ends in a lone backslash matches
    nothing here (the patterns of this store end in [%]). Matching is by
    byte, which is matching by character on ASCII data. *)
Fixpoint like (pattern : list ascii) : list ascii -> bool :=
  match pattern with
  | [] => fun s => match s with [] => true | _ :: _ => false end
  | p :: pattern' =>
      if Ascii.eqb p "%" then
        fix any (s : list ascii) : bool :=
          like pattern' s ||
          match s with
          | [] => false
          | _ :: s' => any s'
          end
      else if Ascii.eqb p "_" then
        fun s => match s with
                 | [] => false
                 | _ :: s' => like pattern' s'
                 end
      else if Ascii.eqb p "\" then
        match pattern' with
        | [] => fun _ => false
        | e :: pattern'' =>
            fun s => match s with
                     | [] => false
                     | c :: s' => Ascii.eqb c e && like pattern'' s'
                     end
        end
      else
        fun s => match s with
                 | [] => false
                 | c :: s' => Ascii.eqb c p && like pattern' s'
                 end
  end.

Definition LIKE (s pattern : string) : bool :=
  like (list_ascii_of_string pattern) (list_ascii_of_string s).

(** [ORDER BY key] ascending on an integer key. *)
Definition order_by {A} (key : A -> Z) (rows : list A) : list A :=
  @merge_sort A (fun a b => key a <= key b)
    (fun a b => decide (key a <= key b)) rows.

(** [LIMIT limit OFFSET offset] *)
Definition limit_offset {A} (limit offset : Z) (rows : list A) : Result (list A) :=
  if (limit <? 0) || (offset <? 0) then Err ErrNegativeLimit
  else Ok (take (Z.to_nat limit) (drop (Z.to_nat offset) rows)).

(** an [INSERT] with or without [ON CONFLICT DO NOTHING] *)
Inductive OnConflict : Type := NoClause | DoNothing.

End Sql.

(** ** The types of the [shared] package, as the store uses them *)

Module shared.

(** Modelled from the spec: the [shared] package is not among the sources.
    An affected symbol has a [path] and [symbols], a list of symbol names. *)
Record AffectedSymbol : Type := {
  Path : string;
  Symbols : list string;
}.

(** Modelled from the spec: the [shared] package is not among the sources.
    Of the fields of an affected package these are the ones the store fills:
    [packageName], [language], [namespace], [versionConstraint], [fixed], the
    optional [fixedIn] (a [*string]) and [affectedSymbols]. *)
Record AffectedPackage : Type := {
  PackageName : string;
  Language : string;
  Namespace : string;
  VersionConstraint : list string;
  Fixed : bool;
  FixedIn : option string;
  AffectedSymbols : list AffectedSymbol;
}.

(** Modelled from the spec: the [shared] package is not among the sources.
    A match has an [id], an [uploadID], the joined [vulnerabilityID] (Go
    [int]s) and the full affected package; the field holding the package is
    [Package] here, its Go name being that of its type. *)
Record VulnerabilityMatch : Type := {
  ID : Z;
  UploadID : Z;
  VulnerabilityID : Z;
  Package : AffectedPackage;
}.

(** Modelled from the spec: the [shared] package is not among the sources.
    The arguments of the list query are a limit and an offset. *)
Record GetVulnerabilityMatchesArgs : Type := {
  Limit : Z;
  Offset : Z;
}.

(** the zero value of the struct *)
Definition AffectedPackage_zero : AffectedPackage :=
  {| PackageName := ""; Language := ""; Namespace := "";
     VersionConstraint := []; Fixed := false; FixedIn := None;
     AffectedSymbols := [] |}.

Definition set_AffectedSymbols (p : AffectedPackage) (symbols : list AffectedSymbol)
    : AffectedPackage :=
  {| PackageName := PackageName p; Language := Language p;
     Namespace := Namespace p; VersionConstraint := VersionConstraint p;
     Fixed := Fixed p; FixedIn := FixedIn p; AffectedSymbols := symbols |}.

Definition set_FixedIn (p : AffectedPackage) (fixedIn : option string)
    : AffectedPackage :=
  {| PackageName := PackageName p; Language := Language p;
     Namespace := Namespace p; VersionConstraint := VersionConstraint p;
     Fixed := Fixed p; FixedIn := fixedIn; AffectedSymbols := AffectedSymbols p |}.

Definition set_Package (m : VulnerabilityMatch) (p : AffectedPackage)
    : VulnerabilityMatch :=
  {| ID := ID m; UploadID := UploadID m; VulnerabilityID := VulnerabilityID m;
     Package := p |}.

End shared.

(** ** The tables *)

(** Modelled from the spec: the schema is not among the sources. A row of
    [lsif_references], with the columns [scanMatchesQuery] reads:
    [PackageReferences(uploadID, packageName, version, scheme)]. *)
Record Reference : Type := {
  r_dump_id : Z;
  r_scheme : string;
  r_name : string;
  r_version : string;
}.

(** Modelled from the spec: the schema is not among the sources. A row of
    [vulnerability_affected_packages]: [AffectedPackages(id, vulnerabilityID,
    packageName, language, namespace, versionConstraint[], fixed, fixedIn)],
    of which [fixedIn] is optional. *)
Record AffectedPackageRow : Type := {
  vap_id : Z;
  vap_vulnerability_id : Z;
  vap_package_name : string;
  vap_language : string;
  vap_namespace : string;
  vap_version_constraint : list string;
  vap_fixed : bool;
  vap_fixed_in : option string;
}.

(** Modelled from the spec: the schema is not among the sources. A row of
    [vulnerability_affected_symbols], with the [id] the list query orders by:
    [AffectedSymbols(affectedPackageID, path, symbols[])]. *)
Record AffectedSymbolRow : Type := {
  vas_id : Z;
  vas_vulnerability_affected_package_id : Z;
  vas_path : string;
  vas_symbols : list string;
}.

(** Modelled from the spec: the schema is not among the sources. A row of
    [vulnerability_matches]: [VulnerabilityMatches(id, uploadID,
    affectedPackageID)]. *)
Record MatchRow : Type := {
  m_id : Z;
  m_upload_id : Z;
  m_vulnerability_affected_package_id : Z;
}.

(** Modelled from the spec: the schema of [vulnerability_matches] is not
    among the sources; the spec gives the table as unique on
    [(uploadID, affectedPackageID)]. This is the key of that unique index. *)
Definition vulnerability_matches_key (m : MatchRow) : Z * Z :=
  (m_upload_id m, m_vulnerability_affected_package_id m).

Definition keys (rows : list MatchRow) : list (Z * Z) :=
  map vulnerability_matches_key rows.

(** the unique index holds in a table *)
Definition unique_matches (rows : list MatchRow) : Prop := NoDup (keys rows).

Record Database : Type := {
  lsif_references : list Reference;
  vulnerability_affected_packages : list AffectedPackageRow;
  vulnerability_affected_symbols : list AffectedSymbolRow;
  vulnerability_matches : list MatchRow;
  (** the sequence behind the serial [id] of [vulnerability_matches] *)
  vulnerability_matches_id_seq : Z;
}.

Definition set_matches (db : Database) (rows : list MatchRow) (seq : Z) : Database :=
  {| lsif_references := lsif_references db;
     vulnerability_affected_packages := vulnerability_affected_packages db;
     vulnerability_affected_symbols := vulnerability_affected_symbols db;
     vulnerability_matches := rows;
     vulnerability_matches_id_seq := seq |}.

(** Modelled from the spec: the schema is not among the sources; the spec
    gives [affectedPackageID] as a foreign key, so every match refers to a row
    of the catalog. *)
Definition foreign_key_holds (db : Database) : Prop :=
  forall m, m ∈ vulnerability_matches db ->
    exists vap, vap ∈ vulnerability_affected_packages db /\
                vap_id vap = m_vulnerability_affected_package_id m.

(** ** Reading matches *)

(** One row of the two read queries: [m.id], [m.upload_id],
    [vap.vulnerability_id], the fields of
    [vulnerabilityAffectedPackageFields] and of
    [vulnerabilityAffectedSymbolFields], and [count]. The two field lists
    are constants of the package that are not among the sources; they are
    taken to be the columns the scanner reads, in its order. Everything
    selected from the right-hand side of a left join can be NULL. *)
Record MatchQueryRow : Type := {
  q_id : Z;
  q_upload_id : Z;
  q_vulnerability_id : option Z;
  q_package_name : option string;
  q_language : option string;
  q_namespace : option string;
  q_version_constraint : option (list string);
  q_fixed : option bool;
  q_fixed_in : option string;
  q_path : option string;
  q_symbols : option (list string);
  q_count : Z;
}.

Definition join_row (m : MatchRow) (vap : option AffectedPackageRow)
    (vas : option AffectedSymbolRow) (count : Z) : MatchQueryRow :=
  {| q_id := m_id m;
     q_upload_id := m_upload_id m;
     q_vulnerability_id := option_map vap_vulnerability_id vap;
     q_package_name := option_map vap_package_name vap;
     q_language := option_map vap_language vap;
     q_namespace := option_map vap_namespace vap;
     q_version_constraint := option_map vap_version_constraint vap;
     q_fixed := option_map vap_fixed vap;
     q_fixed_in := match vap with Some p => vap_fixed_in p | None => None end;
     q_path := option_map vas_path vas;
     q_symbols := option_map vas_symbols vas;
     q_count := count |}.

(** [LEFT JOIN vulnerability_affected_symbols vas ON
    vas.vulnerability_affected_package_id = vap.id], symbols by [vas.id]. *)
Definition join_symbols (db : Database) (m : MatchRow) (count : Z)
    (vap : AffectedPackageRow) : list MatchQueryRow :=
  match filter (fun vas => vas_vulnerability_affected_package_id vas = vap_id vap)
               (Sql.order_by vas_id (vulnerability_affected_symbols db)) with
  | [] => [join_row m (Some vap) None count]
  | symbols => map (fun vas => join_row m (Some vap) (Some vas) count) symbols
  end.

(** [LEFT JOIN vulnerability_affected_packages vap ON vap.id =
    m.vulnerability_affected_package_id], packages by [vap.id], followed by
    the join with the symbols. *)
Definition join_packages (db : Database) (mc : MatchRow * Z) : list MatchQueryRow :=
  let (m, count) := mc in
  match filter (fun vap => vap_id vap = m_vulnerability_affected_package_id m)
               (Sql.order_by vap_id (vulnerability_affected_packages db)) with
  | [] => [join_row m None None count]
  | packages => flat_map (join_symbols db m count) packages
  end.

(** [vulnerabilityMatchByIDQuery]: the match of the given id, [0 AS count].
    The query has no [ORDER BY]; its rows are taken in the order of the list
    query. *)
Definition vulnerabilityMatchByIDQuery (db : Database) (id : Z)
    : Result (list MatchQueryRow) :=
  Ok (flat_map (join_packages db)
        (map (fun m => (m, 0))
             (filter (fun m => m_id m = id) (vulnerability_matches db)))).

(** [getVulnerabilityMatchesQuery]: [limited_matches] is the page of the
    table ordered by id, every row of it carrying [COUNT( * ) OVER()], the
    number of rows of the table before [LIMIT] and [OFFSET] apply; the
    outer query joins the page and orders by [m.id, vap.id, vas.id]. *)
Definition limited_matches (db : Database) (limit offset : Z)
    : Result (list (MatchRow * Z)) :=
  let count := Z.of_nat (length (vulnerability_matches db)) in
  rbind
    (Sql.limit_offset limit offset
       (Sql.order_by m_id (vulnerability_matches db)))
    (fun page => Ok (map (fun m => (m, count)) page)).

Definition getVulnerabilityMatchesQuery (db : Database) (limit offset : Z)
    : Result (list MatchQueryRow) :=
  rbind (limited_matches db limit offset)
        (fun page => Ok (flat_map (join_packages db) page)).

(** *** Scanning one row *)

(** [Scan] into a Go [int]: NULL is an error. *)
Definition scan_int (value : option Z) : Result Z :=
  match value with
  | Some n => Ok n
  | None => Err ErrScanNull
  end.

(** Modelled from the spec: [dbutil.NullString] is not among the sources.
    Scanning into [dbutil.NullString{S: &dest}] stores a string in [dest];
    a NULL (a left-join miss) is skipped and leaves [dest] as it was. *)
Definition NullString (dest : string) (value : option string) : string :=
  match value with
  | Some v => v
  | None => dest
  end.

(** Modelled from the spec: [dbutil.NullBool] is not among the sources.
    [dbutil.NullBool{B: &dest}] is the same for a boolean. *)
Definition NullBool (dest : bool) (value : option bool) : bool :=
  match value with
  | Some v => v
  | None => dest
  end.

(** How a slice reaches [pq.Array]: by its address, or by value. *)
Inductive ArrayArg : Type :=
| ByAddress
| ByValue.

(** The caller's slice after the array scanner has read the column. Given
    the address of the slice, the scanner stores the column there (nil for
    NULL). Given the slice itself, [pq.Array] wraps its own copy of the slice
    header and the scanner stores into that copy: the caller's slice keeps
    the value it had. *)
Definition pq_Array (arg : ArrayArg) (dest : list string)
    (value : option (list string)) : list string :=
  match arg with
  | ByAddress => match value with Some v => v | None => [] end
  | ByValue => dest
  end.

(** The function given to [NewSliceWithCountScanner] by
    [scanVulnerabilityMatchesAndCount]: one row to one match and its count. *)
Definition scanVulnerabilityMatch (s : MatchQueryRow)
    : Result (shared.VulnerabilityMatch * Z) :=
  rbind (scan_int (q_vulnerability_id s)) (fun vulnerabilityID =>
  let match_ := {| shared.ID := q_id s;
                   shared.UploadID := q_upload_id s;
                   shared.VulnerabilityID := vulnerabilityID;
                   shared.Package := shared.AffectedPackage_zero |} in
  let vap := {| shared.PackageName := NullString "" (q_package_name s);
                shared.Language := NullString "" (q_language s);
                shared.Namespace := NullString "" (q_namespace s);
                shared.VersionConstraint :=
                  pq_Array ByAddress [] (q_version_constraint s);
                shared.Fixed := NullBool false (q_fixed s);
                shared.FixedIn := None;
                shared.AffectedSymbols := [] |} in
  let fixedIn := NullString "" (q_fixed_in s) in
  let vas := {| shared.Path := NullString "" (q_path s);
                shared.Symbols := pq_Array ByValue [] (q_symbols s) |} in
  let count := q_count s in
  let vap := if decide (fixedIn <> "")
             then shared.set_FixedIn vap (Some fixedIn) else vap in
  let vap := if decide (shared.Path vas <> "")
             then shared.set_AffectedSymbols vap (shared.AffectedSymbols vap ++ [vas])
             else vap in
  let match_ := if decide (shared.PackageName vap <> "")
                then shared.set_Package match_ vap else match_ in
  Ok (match_, count)).

(** Modelled from the spec: [basestore.NewSliceWithCountScanner] is not
    among the sources. A failed query or a row that fails to scan gives the
    error; otherwise the values are collected in row order, and the count is
    the sidecar value the rows carry (that of the last row read, 0 when there
    is no row). *)
Fixpoint scan_rows {A R} (f : R -> Result (A * Z)) (rows : list R)
    (values : list A) (totalCount : Z) : Result (list A * Z) :=
  match rows with
  | [] => Ok (values, totalCount)
  | row :: rows' =>
      rbind (f row) (fun vc => scan_rows f rows' (values ++ [fst vc]) (snd vc))
  end.

Definition NewSliceWithCountScanner {A R} (f : R -> Result (A * Z))
    (query : Result (list R)) : Result (list A * Z) :=
  rbind query (fun rows => scan_rows f rows [] 0).

(** *** flattenMatches *)

Definition flatten_step (flattened : list shared.VulnerabilityMatch)
    (m : shared.VulnerabilityMatch) : list shared.VulnerabilityMatch :=
  let i := (length flattened - 1)%nat in
  match flattened !! i with
  | None => flattened ++ [m]
  | Some last =>
      if decide (shared.ID last <> shared.ID m) then flattened ++ [m]
      else if decide (shared.PackageName (shared.Package last) = "") then
        <[i := shared.set_Package last (shared.Package m)]> flattened
      else
        let symbols := shared.AffectedSymbols (shared.Package last) in
        let symbols := symbols ++ shared.AffectedSymbols (shared.Package m) in
        <[i := shared.set_Package last
                 (shared.set_AffectedSymbols (shared.Package last) symbols)]>
          flattened
  end.

Definition flattenMatches (ms : list shared.VulnerabilityMatch)
    : list shared.VulnerabilityMatch :=
  fold_left flatten_step ms [].

Definition scanVulnerabilityMatchesAndCount (query : Result (list MatchQueryRow))
    : Result (list shared.VulnerabilityMatch * Z) :=
  rbind (NewSliceWithCountScanner scanVulnerabilityMatch query)
        (fun mc => Ok (flattenMatches (fst mc), snd mc)).

Definition GetVulnerabilityMatches (db : Database)
    (args : shared.GetVulnerabilityMatchesArgs)
    : Result (list shared.VulnerabilityMatch * Z) :=
  scanVulnerabilityMatchesAndCount
    (getVulnerabilityMatchesQuery db (shared.Limit args) (shared.Offset args)).

Definition VulnerabilityMatchByID (db : Database) (id : Z)
    : Result (option shared.VulnerabilityMatch) :=
  rbind (scanVulnerabilityMatchesAndCount (vulnerabilityMatchByIDQuery db id))
        (fun mc => Ok (head (fst mc))).

(** ** Rows as the scanner sees them *)

(** The package a row holds, as the scanner has built it when it decides
    whether to attach it to the match. *)
Definition row_package (s : MatchQueryRow) : shared.AffectedPackage :=
  let fixedIn := NullString "" (q_fixed_in s) in
  let path := NullString "" (q_path s) in
  {| shared.PackageName := NullString "" (q_package_name s);
     shared.Language := NullString "" (q_language s);
     shared.Namespace := NullString "" (q_namespace s);
     shared.VersionConstraint := pq_Array ByAddress [] (q_version_constraint s);
     shared.Fixed := NullBool false (q_fixed s);
     shared.FixedIn := if decide (fixedIn = "") then None else Some fixedIn;
     shared.AffectedSymbols :=
       if decide (path = "") then []
       else [ {| shared.Path := path; shared.Symbols := [] |} ] |}.

(** The match a row scans to when its vulnerability id is not NULL. *)
Definition row_match (s : MatchQueryRow) : shared.VulnerabilityMatch :=
  {| shared.ID := q_id s;
     shared.UploadID := q_upload_id s;
     shared.VulnerabilityID := default 0 (q_vulnerability_id s);
     shared.Package :=
       if decide (NullString "" (q_package_name s) = "")
       then shared.AffectedPackage_zero else row_package s |}.

(** A column holding the empty string, read as NULL. *)
Definition empty_as_null (value : option string) : option string :=
  match value with
  | Some v => if decide (v = "") then None else Some v
  | None => None
  end.



(** A row holds a symbol: its path is neither NULL nor empty. *)
Definition has_path (s : MatchQueryRow) : Prop :=
  NullString "" (q_path s) <> "".

#[export] Instance has_path_dec (s : MatchQueryRow) : Decision (has_path s).
Proof. unfold has_path. apply _. Defined.


(** ** Scanning for new matches *)

(** The calls of [ScanMatches] into the store, each of which can fail. *)
Inductive StoreCall : Type :=
| CallTransact
| CallQuery
| CallCreateTemporaryTable
| CallInsert
| CallUpdate
| CallCommit.

(** What the connection does to each call: [None] lets it through. *)
Definition Faults : Type := StoreCall -> option Error.

Definition attempt (faults : Faults) (call : StoreCall) : Result unit :=
  match faults call with
  | Some e => Err e
  | None => Ok tt
  end.

(** the first call the connection fails, in the order [ScanMatches] makes
    its calls *)
Definition first_fault (faults : Faults) : option Error :=
  match faults CallTransact with
  | Some e => Some e
  | None =>
  match faults CallQuery with
  | Some e => Some e
  | None =>
  match faults CallCreateTemporaryTable with
  | Some e => Some e
  | None =>
  match faults CallInsert with
  | Some e => Some e
  | None =>
  match faults CallUpdate with
  | Some e => Some e
  | None => faults CallCommit
  end end end end end.

(** An open transaction: the database as the transaction sees it, and the
    temporary table of the transaction once it is created. *)
Record Tx : Type := {
  tx_db : Database;
  t_vulnerability_affected_packages : option (list (Z * Z));
}.

(** [sort.Strings] *)
Definition sort_Strings (a : list string) : list string :=
  @merge_sort string (fun x y => String.leb x y = true)
    (fun x y => decide (String.leb x y = true)) a.

(** the local map of [ScanMatches] *)
Definition scipSchemeToVulnerabilityLanguage : gmap string string :=
  {[ "gomod" := "go"; "npm" := "Javascript" ]}.

(** The keys of the map, appended in the order of the range loop and then
    sorted. *)
Definition schemes_of (mapping : gmap string string) : list string :=
  sort_Strings (map fst (map_to_list mapping)).

(** One [(r.scheme = %s AND vap.language = %s)] per scheme, with the
    scheme and the value the map has for it. *)
Definition mappings_of (mapping : gmap string string) : list (string * string) :=
  map (fun scheme => (scheme, default "" (mapping !! scheme))) (schemes_of mapping).

(** The mappings joined with [OR], as a condition on a joined pair. *)
Definition mappings_hold (mappings : list (string * string))
    (r : Reference) (vap : AffectedPackageRow) : bool :=
  existsb (fun sl => bool_decide (r_scheme r = fst sl) &&
                     bool_decide (vap_language vap = snd sl)) mappings.

(** One row of [scanMatchesQuery]: [r.dump_id], [vap.id], [r.version],
    [vap.version_constraint]. *)
Record CandidateRow : Type := {
  c_dump_id : Z;
  c_vap_id : Z;
  c_version : string;
  c_version_constraint : list string;
}.

(** The candidate of a reference and a package. *)
Definition candidate (r : Reference) (vap : AffectedPackageRow) : CandidateRow :=
  {| c_dump_id := r_dump_id r;
     c_vap_id := vap_id vap;
     c_version := r_version r;
     c_version_constraint := vap_version_constraint vap |}.

(** the join condition [r.name LIKE '%' || vap.package_name || '%'] *)
Definition name_like (r : Reference) (vap : AffectedPackageRow) : bool :=
  Sql.LIKE (r_name r) ("%" ++ vap_package_name vap ++ "%")%string.

(** [scanMatchesQuery], with the condition that fills its [WHERE]. Rows
    come package by package, references in table order within a package. *)
Definition scanMatchesQuery (mappings : list (string * string)) (db : Database)
    : list CandidateRow :=
  flat_map (fun vap =>
    flat_map (fun r =>
      if name_like r vap && mappings_hold mappings r vap
      then [candidate r vap]
      else [])
      (lsif_references db))
    (vulnerability_affected_packages db).

(** [scanMatchesTemporaryTableQuery] *)
Definition scanMatchesTemporaryTableQuery (tx : Tx) : Result Tx :=
  match t_vulnerability_affected_packages tx with
  | Some _ => Err ErrRelationExists
  | None => Ok {| tx_db := tx_db tx; t_vulnerability_affected_packages := Some [] |}
  end.

(** An [INSERT INTO vulnerability_matches (upload_id,
    vulnerability_affected_package_id)] of the given pairs, in order. Every
    row draws its id from the sequence before the unique index is consulted;
    a row whose key is in the table already (from before, or from an earlier
    row of this statement) is skipped under [ON CONFLICT DO NOTHING] and
    fails the statement without it. *)
Fixpoint insert_vulnerability_matches (clause : Sql.OnConflict)
    (pairs : list (Z * Z)) (rows : list MatchRow) (seq : Z)
    : Result (list MatchRow * Z) :=
  match pairs with
  | [] => Ok (rows, seq)
  | staged :: pairs' =>
      let id := seq + 1 in
      let row := {| m_id := id;
                    m_upload_id := fst staged;
                    m_vulnerability_affected_package_id := snd staged |} in
      if bool_decide (vulnerability_matches_key row ∈
                        map vulnerability_matches_key rows)
      then match clause with
           | Sql.DoNothing => insert_vulnerability_matches clause pairs' rows id
           | Sql.NoClause => Err ErrUniqueViolation
           end
      else insert_vulnerability_matches clause pairs' (rows ++ [row]) id
  end.

(** [scanMatchesUpdateQuery] *)
Definition scanMatchesUpdateQuery (tx : Tx) : Result Tx :=
  match t_vulnerability_affected_packages tx with
  | None => Err ErrNoRelation
  | Some pairs =>
      let db := tx_db tx in
      rbind (insert_vulnerability_matches Sql.DoNothing pairs
               (vulnerability_matches db) (vulnerability_matches_id_seq db))
            (fun rs => Ok {| tx_db := set_matches db (fst rs) (snd rs);
                             t_vulnerability_affected_packages := Some pairs |})
  end.

(** Modelled from the spec: [basestore] is not among the sources. [tx.Exec]
    runs a statement in the transaction, unless the connection fails. *)
Definition tx_Exec (faults : Faults) (call : StoreCall)
    (statement : Tx -> Result Tx) (tx : Tx) : Result Tx :=
  rbind (attempt faults call) (fun _ => statement tx).

(** Modelled from the spec: [basestore] is not among the sources. [tx.Query]
    runs a query on the database as the transaction sees it, unless the
    connection fails. *)
Definition tx_Query {R} (faults : Faults) (query : Database -> list R) (tx : Tx)
    : Result (list R) :=
  rbind (attempt faults CallQuery) (fun _ => Ok (query (tx_db tx))).

(** the store's own [VulnerabilityMatch], the pair that is persisted *)
Record VulnerabilityMatch : Type := {
  UploadID : Z;
  VulnerabilityAffectedPackageID : Z;
}.

(** Modelled from the spec: [batch.WithInserter] is not among the sources.
    The rows handed to the inserter are staged in the named temporary table,
    all of them and in order, whatever the size of the chunks they travel
    in. *)
Definition WithInserter (faults : Faults) (tx : Tx)
    (matches : list VulnerabilityMatch) : Result Tx :=
  rbind (attempt faults CallInsert) (fun _ =>
  match t_vulnerability_affected_packages tx with
  | None => Err ErrNoRelation
  | Some staged =>
      Ok {| tx_db := tx_db tx;
            t_vulnerability_affected_packages :=
              Some (staged ++ map (fun m => (UploadID m, VulnerabilityAffectedPackageID m))
                                  matches) |}
  end).

(** Modelled from the spec: [basestore.NewFilteredSliceScanner] is not
    among the sources. A failed query or a row that fails to scan gives the
    error; otherwise the values whose flag is true are kept, in row order. *)
Fixpoint filter_rows {A R} (f : R -> Result (A * bool)) (rows : list R)
    (values : list A) : Result (list A) :=
  match rows with
  | [] => Ok values
  | row :: rows' =>
      rbind (f row) (fun vk =>
        filter_rows f rows' (if snd vk then values ++ [fst vk] else values))
  end.

Definition NewFilteredSliceScanner {A R} (f : R -> Result (A * bool))
    (query : Result (list R)) : Result (list A) :=
  rbind query (fun rows => filter_rows f rows []).

(** ** The evaluator and the scan, over any version library *)

Section Store.
Context {L : GoVersion.Library}.

Definition versionMatchesConstraints
    (versionString : string) (constraints : list string) : bool * bool :=
  match GoVersion.NewVersion versionString with
  | None => (false, false)
  | Some v =>
      match GoVersion.NewConstraint (GoStrings.Join constraints ",") with
      | None => (false, false)
      | Some constraint => (GoVersion.Check constraint v, true)
      end
  end.

(** One constraint expression accepts a version when it parses as a
    single constraint and the check of that constraint holds of the
    version. *)
Definition accepts (v : GoVersion.Version) (expr : string) : bool :=
  match GoVersion.parseSingle expr with
  | Some k => GoVersion.checkSingle k v
  | None => false
  end.

(** An element of the list without a comma is one constraint expression. *)
Definition single_expression (expr : string) : Prop :=
  Forall (fun ch => ch <> ","%char) (list_ascii_of_string expr).

(** A version satisfies an element of the list when every expression of
    the element accepts it: the element itself when it is one expression,
    the expressions between its commas otherwise. *)
Definition satisfies (v : GoVersion.Version) (expr : string) : bool :=
  forallb (accepts v) (GoStrings.Split1 expr ",").

(** The function given to [NewFilteredSliceScanner]: the four columns of a
    candidate scan into Go values of their own types, so the scan of a row
    succeeds; the flag is [matches], and [valid] is dropped. *)
Definition scanFilteredVulnerabilityMatch (s : CandidateRow)
    : Result (VulnerabilityMatch * bool) :=
  let m := {| UploadID := c_dump_id s;
              VulnerabilityAffectedPackageID := c_vap_id s |} in
  let version := c_version s in
  let versionConstraints := c_version_constraint s in
  let (matches, valid) := versionMatchesConstraints version versionConstraints in
  Ok (m, matches).

Definition scanFilteredVulnerabilityMatches (query : Result (list CandidateRow))
    : Result (list VulnerabilityMatch) :=
  NewFilteredSliceScanner scanFilteredVulnerabilityMatch query.

(** the candidates the evaluator accepts *)
Definition survivors (rows : list CandidateRow) : list VulnerabilityMatch :=
  flat_map (fun s =>
    if fst (versionMatchesConstraints (c_version s) (c_version_constraint s))
    then [ {| UploadID := c_dump_id s;
              VulnerabilityAffectedPackageID := c_vap_id s |} ]
    else []) rows.

(** the pairs a scan of this database stages *)
Definition staged_pairs (db : Database) : list (Z * Z) :=
  map (fun m => (UploadID m, VulnerabilityAffectedPackageID m))
      (survivors (scanMatchesQuery (mappings_of scipSchemeToVulnerabilityLanguage) db)).

(** The body of [ScanMatches] between [Transact] and [Done]. *)
Definition ScanMatches_tx (faults : Faults) (tx : Tx) : Result Tx :=
  let mappings := mappings_of scipSchemeToVulnerabilityLanguage in
  rbind (scanFilteredVulnerabilityMatches
           (tx_Query faults (scanMatchesQuery mappings) tx)) (fun matches =>
  rbind (tx_Exec faults CallCreateTemporaryTable
           scanMatchesTemporaryTableQuery tx) (fun tx =>
  rbind (WithInserter faults tx matches) (fun tx =>
  tx_Exec faults CallUpdate scanMatchesUpdateQuery tx))).

(** [ScanMatches]: the returned error and the database afterwards.
    [s.db.Transact] and [tx.Done] are not among the sources; after the spec,
    [tx.Done] commits when the body returned no error and rolls back
    otherwise, and a transaction that does not commit leaves the database as
    it was: either the complete match set of the run is persisted, or none of
    it. *)
Definition ScanMatches (faults : Faults) (db : Database) : option Error * Database :=
  match attempt faults CallTransact with
  | Err e => (Some e, db)
  | Ok _ =>
      let tx := {| tx_db := db; t_vulnerability_affected_packages := None |} in
      match ScanMatches_tx faults tx with
      | Err e => (Some e, db)
      | Ok tx' =>
          match attempt faults CallCommit with
          | Err e => (Some e, db)
          | Ok _ => (None, tx_db tx')
          end
      end
  end.

(** Any number of scans, one after the other; between two scans the
    references and the catalog may be replaced. *)
Record Invocation : Type := {
  inv_faults : Faults;
  inv_references : list Reference;
  inv_packages : list AffectedPackageRow;
  inv_symbols : list AffectedSymbolRow;
}.

Definition with_inputs (i : Invocation) (db : Database) : Database :=
  {| lsif_references := inv_references i;
     vulnerability_affected_packages := inv_packages i;
     vulnerability_affected_symbols := inv_symbols i;
     vulnerability_matches := vulnerability_matches db;
     vulnerability_matches_id_seq := vulnerability_matches_id_seq db |}.

Definition scans (invocations : list Invocation) (db : Database) : Database :=
  fold_left (fun db i => snd (ScanMatches (inv_faults i) (with_inputs i db)))
            invocations db.

End Store.

Definition no_faults : Faults := fun _ => None.

(** ** The end-to-end scenario of the specification, as data *)

Module Scenario.

Definition reference : Reference :=
  {| r_dump_id := 10; r_scheme := "gomod";
     r_name := "github.com/foo/bar"; r_version := "1.4.0" |}.

(** a second reference to the same package whose version is no version *)
Definition unparsable : Reference :=
  {| r_dump_id := 11; r_scheme := "gomod";
     r_name := "github.com/foo/bar"; r_version := "abc" |}.

Definition package : AffectedPackageRow :=
  {| vap_id := 5; vap_vulnerability_id := 3;
     vap_package_name := "bar"; vap_language := "go"; vap_namespace := "";
     vap_version_constraint := [">=1.0.0"; "<1.5.0"];
     vap_fixed := true; vap_fixed_in := Some "" |}.

Definition symbols : list AffectedSymbolRow :=
  [ {| vas_id := 1; vas_vulnerability_affected_package_id := 5;
       vas_path := "bar/parse.go"; vas_symbols := ["Parse"; "MustParse"] |};
    {| vas_id := 2; vas_vulnerability_affected_package_id := 5;
       vas_path := "bar/walk.go"; vas_symbols := ["Walk"] |};
    {| vas_id := 3; vas_vulnerability_affected_package_id := 5;
       vas_path := "bar/emit.go"; vas_symbols := ["Emit"] |} ].

(** the database before the first scan *)
Definition before : Database :=
  {| lsif_references := [unparsable; reference];
     vulnerability_affected_packages := [package];
     vulnerability_affected_symbols := symbols;
     vulnerability_matches := [];
     vulnerability_matches_id_seq := 0 |}.

(** the database after a scan on dotted-decimal versions *)
Definition after : Database :=
  snd (@ScanMatches DecimalVersions.library no_faults before).

(** the same database, had the catalog no symbol for the package *)
Definition after_without_symbols : Database :=
  {| lsif_references := lsif_references after;
     vulnerability_affected_packages := vulnerability_affected_packages after;
     vulnerability_affected_symbols := [];
     vulnerability_matches := vulnerability_matches after;
     vulnerability_matches_id_seq := vulnerability_matches_id_seq after |}.

(** a row of the list query for the match of the scenario, with the given
    symbol columns *)
Definition row (path : option string) (names : option (list string))
    : MatchQueryRow :=
  {| q_id := 1; q_upload_id := 10; q_vulnerability_id := Some 3;
     q_package_name := Some "bar"; q_language := Some "go";
     q_namespace := Some ""; q_version_constraint := Some [">=1.0.0"; "<1.5.0"];
     q_fixed := Some true; q_fixed_in := Some "";
     q_path := path; q_symbols := names; q_count := 1 |}.

(** the only row the list query returns for [after_without_symbols] *)
Definition row_without_symbol : MatchQueryRow := row None None.

(** the three rows the list query returns for [after] *)
Definition rows_with_symbols : list MatchQueryRow :=
  [ row (Some "bar/parse.go") (Some ["Parse"; "MustParse"]);
    row (Some "bar/walk.go") (Some ["Walk"]);
    row (Some "bar/emit.go") (Some ["Emit"]) ].

(** the match the three rows reconstruct into *)
Definition reconstructed : shared.VulnerabilityMatch :=
  {| shared.ID := 1; shared.UploadID := 10; shared.VulnerabilityID := 3;
     shared.Package :=
       {| shared.PackageName := "bar"; shared.Language := "go";
          shared.Namespace := "";
          shared.VersionConstraint := [">=1.0.0"; "<1.5.0"];
          shared.Fixed := true; shared.FixedIn := None;
          shared.AffectedSymbols :=
            [ {| shared.Path := "bar/parse.go"; shared.Symbols := [] |};
              {| shared.Path := "bar/walk.go"; shared.Symbols := [] |};
              {| shared.Path := "bar/emit.go"; shared.Symbols := [] |} ] |} |}.

(** two scans of the scenario, the second with the same inputs *)
Definition twice : list Invocation :=
  [ {| inv_faults := no_faults;
       inv_references := lsif_references before;
       inv_packages := vulnerability_affected_packages before;
       inv_symbols := vulnerability_affected_symbols before |};
    {| inv_faults := no_faults;
       inv_references := lsif_references before;
       inv_packages := vulnerability_affected_packages before;
       inv_symbols := vulnerability_affected_symbols before |} ].

(** a package whose name has an underscore, and a reference whose name has
    another byte in its place *)
Definition underscored : AffectedPackageRow :=
  {| vap_id := 6; vap_vulnerability_id := 4;
     vap_package_name := "left_pad"; vap_language := "Javascript";
     vap_namespace := ""; vap_version_constraint := ["<1.3.0"];
     vap_fixed := false; vap_fixed_in := None |}.

Definition lookalike : Reference :=
  {| r_dump_id := 12; r_scheme := "npm";
     r_name := "left-pad"; r_version := "1.2.0" |}.

Definition lookalike_db : Database :=
  {| lsif_references := [lookalike];
     vulnerability_affected_packages := [underscored];
     vulnerability_affected_symbols := [];
     vulnerability_matches := [];
     vulnerability_matches_id_seq := 0 |}.

End Scenario.

(** ** Substring containment *)

(** [strings.HasPrefix] *)
Fixpoint HasPrefix (s prefix : list ascii) : bool :=
  match prefix, s with
  | [], _ => true
  | _ :: _, [] => false
  | p :: prefix', c :: s' => Ascii.eqb c p && HasPrefix s' prefix'
  end.

(** [substr] occurs in [s] at some position *)
Fixpoint contains (s substr : list ascii) : bool :=
  HasPrefix s substr ||
  match s with
  | [] => false
  | _ :: s' => contains s' substr
  end.

(** [strings.Contains]: the name contains the package name as a substring *)
Definition Contains (s substr : string) : bool :=
  contains (list_ascii_of_string s) (list_ascii_of_string substr).

(** a byte with a meaning of its own in a [LIKE] pattern *)
Definition is_wildcard (c : ascii) : bool :=
  Ascii.eqb c "%" || Ascii.eqb c "_" || Ascii.eqb c "\".

(** ** Notions for further properties of the store *)

(** What [flattenMatches] makes of the last match [x] of its accumulator
    when the next match [m] has the id of [x]: [x] takes the package of [m]
    when its own has no name, and the symbols of [m] after its own
    otherwise. *)
Definition merge_match (x m : shared.VulnerabilityMatch) : shared.VulnerabilityMatch :=
  if decide (shared.PackageName (shared.Package x) = "")
  then shared.set_Package x (shared.Package m)
  else shared.set_Package x
         (shared.set_AffectedSymbols (shared.Package x)
            (shared.AffectedSymbols (shared.Package x)
               ++ shared.AffectedSymbols (shared.Package m))).

(** no value of the list is followed by itself *)
Definition no_adjacent_repeat (ids : list Z) : Prop :=
  forall i a b, ids !! i = Some a -> ids !! S i = Some b -> a <> b.

(** the symbol entries of a list of matches, in order *)
Definition all_symbols (ms : list shared.VulnerabilityMatch) : list shared.AffectedSymbol :=
  flat_map (fun m => shared.AffectedSymbols (shared.Package m)) ms.

(** the rows of [vulnerability_matches] that [limited_matches] selects *)
Definition page_of (db : Database) (args : shared.GetVulnerabilityMatchesArgs)
    : list MatchRow :=
  take (Z.to_nat (shared.Limit args))
    (drop (Z.to_nat (shared.Offset args))
       (Sql.order_by m_id (vulnerability_matches db))).

(** a row holds a symbol that the scanner keeps: its package name and its
    path are neither NULL nor empty *)
Definition keeps_symbol (s : MatchQueryRow) : Prop :=
  NullString "" (q_package_name s) <> "" /\ NullString "" (q_path s) <> "".

#[export] Instance keeps_symbol_dec (s : MatchQueryRow) : Decision (keeps_symbol s).
Proof. unfold keeps_symbol. apply _. Defined.

(** a match without a package name has no symbol entry, as every scanned
    match *)
Definition unnamed_has_no_symbols (m : shared.VulnerabilityMatch) : Prop :=
  shared.PackageName (shared.Package m) = "" ->
  shared.AffectedSymbols (shared.Package m) = [].

(** no byte of the string is a backslash, the escape of [LIKE] *)
Definition no_backslash (s : string) : Prop :=
  Forall (fun c => c <> "\"%char) (list_ascii_of_string s).

(** ** More of the scenario, as data *)

Module MoreScenario.

(** the first page of five *)
Definition first_page : shared.GetVulnerabilityMatchesArgs :=
  {| shared.Limit := 5; shared.Offset := 0 |}.

(** a page beyond the one match of the scenario *)
Definition second_page : shared.GetVulnerabilityMatchesArgs :=
  {| shared.Limit := 5; shared.Offset := 5 |}.

(** the scenario after the scan, with the package gone from the catalog *)
Definition dangling : Database :=
  {| lsif_references := lsif_references Scenario.after;
     vulnerability_affected_packages := [];
     vulnerability_affected_symbols := vulnerability_affected_symbols Scenario.after;
     vulnerability_matches := vulnerability_matches Scenario.after;
     vulnerability_matches_id_seq := vulnerability_matches_id_seq Scenario.after |}.

(** the match of the scenario, as a row of the table *)
Definition persisted : MatchRow :=
  {| m_id := 1; m_upload_id := 10; m_vulnerability_affected_package_id := 5 |}.

End MoreScenario.


(** ** A result of several matches, as data *)

Module MixedScenario.

(** a row of the list query for the match [id] and the package of the
    scenario, with the given path *)
Definition row_of (id : Z) (path : option string) : MatchQueryRow :=
  {| q_id := id; q_upload_id := 10; q_vulnerability_id := Some 3;
     q_package_name := Some "bar"; q_language := Some "go";
     q_namespace := Some ""; q_version_constraint := Some [">=1.0.0"; "<1.5.0"];
     q_fixed := Some true; q_fixed_in := Some "";
     q_path := path; q_symbols := None; q_count := 3 |}.

(** the rows of the match before *)
Definition rows_before : list MatchQueryRow :=
  [ row_of 0 (Some "bar/parse.go"); row_of 0 (Some "bar/walk.go") ].

(** the rows of match 1: two with a path, between them one whose path is
    empty *)
Definition rows_of_match : list MatchQueryRow :=
  [ row_of 1 (Some "bar/parse.go"); row_of 1 (Some ""); row_of 1 (Some "bar/walk.go") ].

(** the row of the match after, whose package has no symbol *)
Definition rows_after : list MatchQueryRow := [ row_of 2 None ].




End MixedScenario.
(** * Properties *)

(** ** [strings.Split] after [strings.Join] *)

Module GoStringsFacts.
Import GoStrings.

Lemma Split1_not_nil (s : string) (sep : ascii) : Split1 s sep <> [].
Proof.
  destruct s as [|c rest]; simpl; [discriminate|].
  destruct (Ascii.eqb c sep); [discriminate|].
  destruct (Split1 rest sep); discriminate.
Qed.

(** Splitting at a separator: the pieces left of it, then the pieces right
    of it. *)
Lemma Split1_app_sep (a b : string) (sep : ascii) :
  Split1 (a ++ String sep b)%string sep = Split1 a sep ++ Split1 b sep.
Proof.
  induction a as [|c a IH]; simpl.
  - rewrite Ascii.eqb_refl. reflexivity.
  - destruct (Ascii.eqb c sep); rewrite IH; [reflexivity|].
    pose proof (Split1_not_nil a sep) as Hne.
    destruct (Split1 a sep) as [|piece pieces]; [congruence|reflexivity].
Qed.

(** The pieces of a joined list are the pieces of its elements, in order. *)
Lemma Split1_Join (elems : list string) (sep : ascii) :
  elems <> [] ->
  Split1 (Join elems (String sep "")) sep = flat_map (fun e => Split1 e sep) elems.
Proof.
  induction elems as [|e rest IH]; [congruence|]. intros _.
  destruct rest as [|e' rest].
  - simpl. rewrite app_nil_r. reflexivity.
  - change (Join (e :: e' :: rest) (String sep ""))
      with (e ++ String sep (Join (e' :: rest) (String sep "")))%string.
    rewrite Split1_app_sep, IH by discriminate. reflexivity.
Qed.

End GoStringsFacts.

(** ** The loops of the version library *)

Module GoVersionFacts.
Import GoVersion.

Section Facts.
Context {L : Library}.

Lemma parseAll_app (a b : list string) :
  parseAll (a ++ b) =
  match parseAll a, parseAll b with
  | Some x, Some y => Some (x ++ y)
  | _, _ => None
  end.
Proof.
  induction a as [|s a IH]; simpl.
  - destruct (parseAll b); reflexivity.
  - destruct (parseSingle s); [|reflexivity].
    rewrite IH. destruct (parseAll a), (parseAll b); reflexivity.
Qed.

Lemma Check_app (x y : list Constraint) (v : Version) :
  Check (x ++ y) v = Check x v && Check y v.
Proof.
  induction x as [|c x IH]; simpl; [reflexivity|].
  destruct (checkSingle c v); [exact IH|reflexivity].
Qed.

End Facts.
End GoVersionFacts.

Section EvaluatorFacts.
Context {L : GoVersion.Library}.

(** Constraints that were parsed from expressions hold of a version
    exactly when every one of the expressions accepts it. *)
Lemma Check_parseAll (pieces : list string) (c : list GoVersion.Constraint)
    (v : GoVersion.Version) :
  GoVersion.parseAll pieces = Some c ->
  GoVersion.Check c v = forallb (accepts v) pieces.
Proof.
  revert c. induction pieces as [|piece pieces IH]; intros c; simpl.
  - intros [= <-]. reflexivity.
  - unfold accepts at 1.
    destruct (GoVersion.parseSingle piece) as [k|]; [|discriminate].
    destruct (GoVersion.parseAll pieces) as [ks|]; [|discriminate].
    intros [= <-]. simpl. rewrite (IH ks eq_refl).
    destruct (GoVersion.checkSingle k v); reflexivity.
Qed.

Lemma forallb_flat_map {A B} (f : B -> bool) (g : A -> list B) (l : list A) :
  forallb f (flat_map g l) = forallb (fun a => forallb f (g a)) l.
Proof.
  induction l as [|a l IH]; [reflexivity|].
  simpl. rewrite forallb_app, IH. reflexivity.
Qed.

Lemma accepts_true (v : GoVersion.Version) (expr : string) :
  accepts v expr = true <->
  exists k, GoVersion.parseSingle expr = Some k /\ GoVersion.checkSingle k v = true.
Proof.
  unfold accepts. destruct (GoVersion.parseSingle expr) as [k|].
  - split; [intros H; exists k; auto|]. intros (k' & [= <-] & H). exact H.
  - split; [discriminate|]. intros (k' & H & _). discriminate.
Qed.

(** An element without a comma is its own and only piece. *)
Lemma Split1_single (expr : string) :
  single_expression expr -> GoStrings.Split1 expr "," = [expr].
Proof.
  unfold single_expression.
  induction expr as [|ch expr IH]; intros Hno; [reflexivity|].
  simpl in Hno. apply Forall_cons in Hno as [Hch Hno]. simpl.
  rewrite (proj2 (Ascii.eqb_neq _ _) Hch), (IH Hno). reflexivity.
Qed.

(** When the pieces of all the elements parse, checking them all is
    checking element by element. *)
Lemma Check_pieces (exprs : list string) (c : list GoVersion.Constraint)
    (v : GoVersion.Version) :
  GoVersion.parseAll (flat_map (fun e => GoStrings.Split1 e ",") exprs) = Some c ->
  GoVersion.Check c v = forallb (satisfies v) exprs.
Proof.
  intros Hparse. rewrite (Check_parseAll _ _ v Hparse). apply forallb_flat_map.
Qed.

(** A constraint list whose joined form parses is not empty. *)
Lemma joined_parse_not_nil (constraints : list string) (c : list GoVersion.Constraint) :
  GoVersion.NewConstraint (GoStrings.Join constraints ",") = Some c ->
  constraints <> [].
Proof.
  intros H ->. unfold GoVersion.NewConstraint in H. simpl in H.
  rewrite GoVersion.parseSingle_empty in H. discriminate.
Qed.

(** C1. When the version string and the comma-joined constraint list both
    parse, [versionMatchesConstraints] reports [valid = true], and
    [matches] is the conjunction over the list: it is true exactly when
    every constraint expression of every element parses to a constraint
    whose own check accepts the version; for a list whose elements have no
    comma, exactly when every element does. *)
Theorem versionMatchesConstraints_conjunction
    (versionString : string) (constraints : list string)
    (v : GoVersion.Version) (c : list GoVersion.Constraint) :
  GoVersion.NewVersion versionString = Some v ->
  GoVersion.NewConstraint (GoStrings.Join constraints ",") = Some c ->
  versionMatchesConstraints versionString constraints
    = (forallb (satisfies v) constraints, true)
  /\ (fst (versionMatchesConstraints versionString constraints) = true <->
      forall expr, In expr constraints ->
      forall piece, In piece (GoStrings.Split1 expr ",") ->
      exists k, GoVersion.parseSingle piece = Some k /\
                GoVersion.checkSingle k v = true)
  /\ (Forall single_expression constraints ->
      (fst (versionMatchesConstraints versionString constraints) = true <->
       forall expr, In expr constraints ->
       exists k, GoVersion.parseSingle expr = Some k /\
                 GoVersion.checkSingle k v = true))
  /\ snd (versionMatchesConstraints versionString constraints) = true.
Proof.
  intros Hv Hc.
  assert (versionMatchesConstraints versionString constraints
          = (forallb (satisfies v) constraints, true)) as E.
  { unfold versionMatchesConstraints. rewrite Hv, Hc. f_equal.
    apply Check_pieces.
    rewrite <- GoStringsFacts.Split1_Join by (eapply joined_parse_not_nil; eauto).
    exact Hc. }
  assert (fst (versionMatchesConstraints versionString constraints) = true <->
          forall expr, In expr constraints ->
          forall piece, In piece (GoStrings.Split1 expr ",") ->
          exists k, GoVersion.parseSingle piece = Some k /\
                    GoVersion.checkSingle k v = true) as Hiff.
  { rewrite E. simpl. rewrite forallb_forall. split.
    - intros H expr Hin piece Hpiece. apply accepts_true.
      exact (proj1 (forallb_forall _ _) (H expr Hin) piece Hpiece).
    - intros H expr Hin. apply forallb_forall. intros piece Hpiece.
      apply accepts_true. exact (H expr Hin piece Hpiece). }
  split; [exact E|]. split; [exact Hiff|]. split; [|rewrite E; reflexivity].
  intros Hsingle. rewrite Hiff. split.
  - intros H expr Hin. apply (H expr Hin expr).
    rewrite (Split1_single expr (proj1 (Forall_forall _ _) Hsingle expr
                                   (proj2 (list_elem_of_In _ _) Hin))).
    left. reflexivity.
  - intros H expr Hin piece Hpiece.
    rewrite (Split1_single expr (proj1 (Forall_forall _ _) Hsingle expr
                                   (proj2 (list_elem_of_In _ _) Hin))) in Hpiece.
    destruct Hpiece as [<-|[]]. exact (H expr Hin).
Qed.

End EvaluatorFacts.

(** The evaluator on dotted-decimal versions. *)
Example conjunction_inside :
  @versionMatchesConstraints DecimalVersions.library "1.2.3" [">=1.0.0"; "<2.0.0"]
  = (true, true).
Proof. reflexivity. Qed.

Example conjunction_outside :
  @versionMatchesConstraints DecimalVersions.library "2.0.0" [">=1.0.0"; "<2.0.0"]
  = (false, true).
Proof. reflexivity. Qed.

Example no_constraints_is_invalid :
  @versionMatchesConstraints DecimalVersions.library "1.2.3" [] = (false, false).
Proof. reflexivity. Qed.

Lemma versionMatchesConstraints_conjunction_witness :
  @versionMatchesConstraints DecimalVersions.library "2.0.0" [">=1.0.0"; "<2.0.0"]
  = (false, true).
Proof.
  exact (proj1 (@versionMatchesConstraints_conjunction DecimalVersions.library
                  "2.0.0" [">=1.0.0"; "<2.0.0"]
                  [2; 0; 0]
                  [(DecimalVersions.greaterThanEqual, [1; 0; 0]);
                   (DecimalVersions.lessThan, [2; 0; 0])]
                  eq_refl eq_refl)).
Defined.

(** ** The insert that ignores conflicts *)

Lemma keys_app (rows rows' : list MatchRow) : keys (rows ++ rows') = keys rows ++ keys rows'.
Proof. apply map_app. Qed.

(** With [ON CONFLICT DO NOTHING] the statement does not fail. *)
Lemma insert_DoNothing_total (pairs : list (Z * Z)) (rows : list MatchRow) (seq : Z) :
  exists rows', insert_vulnerability_matches Sql.DoNothing pairs rows seq
                = Ok (rows', seq + Z.of_nat (length pairs)).
Proof.
  revert rows seq. induction pairs as [|p pairs IH]; intros rows seq.
  - exists rows. simpl. do 2 f_equal. lia.
  - replace (seq + Z.of_nat (length (p :: pairs)))
      with (seq + 1 + Z.of_nat (length pairs)) by (simpl length; lia).
    simpl. case_bool_decide; apply IH.
Qed.

(** Whatever the clause, a statement that succeeds keeps the index. *)
Lemma insert_keeps_unique (clause : Sql.OnConflict) (pairs : list (Z * Z))
    (rows rows' : list MatchRow) (seq seq' : Z) :
  unique_matches rows ->
  insert_vulnerability_matches clause pairs rows seq = Ok (rows', seq') ->
  unique_matches rows'.
Proof.
  revert rows seq. induction pairs as [|p pairs IH]; intros rows seq Hu; simpl.
  - intros [= <- _]. exact Hu.
  - case_bool_decide as Hin.
    + destruct clause; [discriminate|]. apply IH, Hu.
    + apply IH. unfold unique_matches. rewrite keys_app.
      apply NoDup_app. split; [exact Hu|]. split.
      * intros k Hk Hk'. simpl in Hk'. apply list_elem_of_singleton in Hk'.
        subst k. exact (Hin Hk).
      * simpl. apply NoDup_singleton.
Qed.

(** The rows of before stay, in place. *)
Lemma insert_extends (clause : Sql.OnConflict) (pairs : list (Z * Z))
    (rows rows' : list MatchRow) (seq seq' : Z) :
  insert_vulnerability_matches clause pairs rows seq = Ok (rows', seq') ->
  exists added, rows' = rows ++ added.
Proof.
  revert rows seq. induction pairs as [|p pairs IH]; intros rows seq; simpl.
  - intros [= <- _]. exists []. symmetry. apply app_nil_r.
  - case_bool_decide as Hin.
    + destruct clause; [discriminate|]. apply IH.
    + intros H. destruct (IH _ _ H) as [added ->].
      eexists. rewrite <- app_assoc. reflexivity.
Qed.

(** After the statement every staged pair is in the table. *)
Lemma insert_covers (clause : Sql.OnConflict) (pairs : list (Z * Z))
    (rows rows' : list MatchRow) (seq seq' : Z) :
  insert_vulnerability_matches clause pairs rows seq = Ok (rows', seq') ->
  forall p, p ∈ pairs -> p ∈ keys rows'.
Proof.
  revert rows seq. induction pairs as [|q pairs IH]; intros rows seq; simpl.
  - intros _ p Hp. inversion Hp.
  - intros H p Hp. apply elem_of_cons in Hp as [->|Hp].
    + case_bool_decide as Hin.
      * destruct clause; [discriminate|].
        destruct (insert_extends _ _ _ _ _ _ H) as [added ->].
        rewrite keys_app. apply elem_of_app. left.
        destruct q; exact Hin.
      * destruct (insert_extends _ _ _ _ _ _ H) as [added ->].
        rewrite !keys_app. apply elem_of_app. left. apply elem_of_app. right.
        destruct q; simpl. apply list_elem_of_singleton. reflexivity.
    + case_bool_decide as Hin.
      * destruct clause; [discriminate|]. eapply IH; eauto.
      * eapply IH; eauto.
Qed.

(** Pairs that are all in the table already are absorbed: no row is added
    and the statement succeeds. *)
Lemma insert_absorbs (pairs : list (Z * Z)) (rows : list MatchRow) (seq : Z) :
  (forall p, p ∈ pairs -> p ∈ keys rows) ->
  insert_vulnerability_matches Sql.DoNothing pairs rows seq
  = Ok (rows, seq + Z.of_nat (length pairs)).
Proof.
  revert seq. induction pairs as [|q pairs IH]; intros seq Hall.
  - simpl. do 2 f_equal. lia.
  - replace (seq + Z.of_nat (length (q :: pairs)))
      with (seq + 1 + Z.of_nat (length pairs)) by (simpl length; lia).
    simpl. rewrite bool_decide_eq_true_2.
    + apply IH. intros p Hp. apply Hall. apply elem_of_cons. right. exact Hp.
    + destruct q. apply Hall. apply elem_of_cons. left. reflexivity.
Qed.

(** A key that occurs once in the index column selects at most one row. *)
Lemma unique_at_most_one (rows : list MatchRow) (k : Z * Z) :
  unique_matches rows ->
  (length (filter (fun m => vulnerability_matches_key m = k) rows) <= 1)%nat.
Proof.
  unfold unique_matches, keys.
  induction rows as [|m rows IH]; simpl; [lia|].
  intros Hnd. apply NoDup_cons in Hnd as [Hnotin Hnd].
  rewrite filter_cons. case_decide as Hk.
  - destruct (filter (fun m => vulnerability_matches_key m = k) rows)
      as [|m' l] eqn:E; [simpl; lia|].
    exfalso. assert (m' ∈ filter (fun m => vulnerability_matches_key m = k) rows)
      as Hm' by (rewrite E; left).
    apply list_elem_of_filter in Hm' as [Hk' Hm']. apply Hnotin.
    rewrite Hk, <- Hk'. apply list_elem_of_fmap_2. exact Hm'.
  - apply IH, Hnd.
Qed.

(** ** What a scan stages and persists *)

Section ScanFacts.
Context {L : GoVersion.Library}.

Lemma survivors_app (rows rows' : list CandidateRow) :
  survivors (rows ++ rows') = survivors rows ++ survivors rows'.
Proof. unfold survivors. apply flat_map_app. Qed.

(** The filtered scanner never fails on candidates: it keeps the
    survivors. *)
Lemma filter_rows_survivors (rows : list CandidateRow) (values : list VulnerabilityMatch) :
  filter_rows scanFilteredVulnerabilityMatch rows values = Ok (values ++ survivors rows).
Proof.
  revert values. induction rows as [|s rows IH]; intros values; simpl.
  - rewrite app_nil_r. reflexivity.
  - unfold scanFilteredVulnerabilityMatch at 1.
    destruct (versionMatchesConstraints (c_version s) (c_version_constraint s))
      as [matches valid].
    simpl. destruct matches; rewrite IH; [rewrite <- app_assoc|]; reflexivity.
Qed.

(** A scan fails with the first fault of the connection and leaves the
    database as it was; with no fault it persists the staged pairs. *)
Lemma ScanMatches_unfold (faults : Faults) (db : Database) :
  ScanMatches faults db =
  match first_fault faults with
  | Some e => (Some e, db)
  | None =>
      match insert_vulnerability_matches Sql.DoNothing (staged_pairs db)
              (vulnerability_matches db) (vulnerability_matches_id_seq db) with
      | Ok rs => (None, set_matches db (fst rs) (snd rs))
      | Err e => (Some e, db)
      end
  end.
Proof.
  unfold ScanMatches, first_fault, ScanMatches_tx, scanFilteredVulnerabilityMatches,
    NewFilteredSliceScanner, tx_Query, tx_Exec, WithInserter, attempt.
  destruct (faults CallTransact); [reflexivity|].
  destruct (faults CallQuery); [reflexivity|]. simpl.
  rewrite filter_rows_survivors. simpl.
  destruct (faults CallCreateTemporaryTable); [reflexivity|]. simpl.
  destruct (faults CallInsert); [reflexivity|]. simpl.
  destruct (faults CallUpdate); [reflexivity|]. simpl.
  fold (staged_pairs db). unfold scanMatchesUpdateQuery. simpl.
  destruct (insert_DoNothing_total (staged_pairs db) (vulnerability_matches db)
              (vulnerability_matches_id_seq db)) as [rows' ->].
  simpl. destruct (faults CallCommit); reflexivity.
Qed.

(** The scan itself returns an error only when the connection fails. *)
Lemma ScanMatches_error_is_fault (faults : Faults) (db : Database) :
  fst (ScanMatches faults db) = first_fault faults.
Proof.
  rewrite ScanMatches_unfold.
  destruct (first_fault faults); [reflexivity|].
  destruct (insert_DoNothing_total (staged_pairs db) (vulnerability_matches db)
              (vulnerability_matches_id_seq db)) as [rows' ->].
  reflexivity.
Qed.

(** A scan changes nothing but the matches table and its sequence. *)
Lemma ScanMatches_inputs (faults : Faults) (db : Database) :
  lsif_references (snd (ScanMatches faults db)) = lsif_references db /\
  vulnerability_affected_packages (snd (ScanMatches faults db))
    = vulnerability_affected_packages db /\
  vulnerability_affected_symbols (snd (ScanMatches faults db))
    = vulnerability_affected_symbols db.
Proof.
  rewrite ScanMatches_unfold.
  destruct (first_fault faults); [auto|].
  destruct (insert_vulnerability_matches _ _ _ _); auto.
Qed.

(** The staged pairs depend on the references and the packages only. *)
Lemma staged_pairs_inputs (db db' : Database) :
  lsif_references db' = lsif_references db ->
  vulnerability_affected_packages db' = vulnerability_affected_packages db ->
  staged_pairs db' = staged_pairs db.
Proof.
  intros Hr Hp. unfold staged_pairs, scanMatchesQuery. rewrite Hr, Hp. reflexivity.
Qed.

(** A scan keeps the unique index. *)
Lemma ScanMatches_keeps_unique (faults : Faults) (db : Database) :
  unique_matches (vulnerability_matches db) ->
  unique_matches (vulnerability_matches (snd (ScanMatches faults db))).
Proof.
  intros Hu. rewrite ScanMatches_unfold.
  destruct (first_fault faults); [exact Hu|].
  destruct (insert_vulnerability_matches _ _ _ _) as [[rows' seq']|e] eqn:E;
    [|exact Hu].
  simpl. eapply insert_keeps_unique; eauto.
Qed.

Lemma scans_keep_unique (invocations : list Invocation) (db : Database) :
  unique_matches (vulnerability_matches db) ->
  unique_matches (vulnerability_matches (scans invocations db)).
Proof.
  revert db. induction invocations as [|i invocations IH]; intros db Hu; simpl.
  - exact Hu.
  - apply IH. apply ScanMatches_keeps_unique. exact Hu.
Qed.

End ScanFacts.

(** ** Claims about the scan *)

Section ScanClaims.
Context {L : GoVersion.Library}.

(** C7. A version string that fails to parse, or a constraint list whose
    joined form is malformed, makes the evaluator answer
    [matches = false, valid = false]. A candidate with such a version or
    constraint list does not fail the scan: the filtered scanner returns the
    survivors among the other candidates, [ScanMatches] returns an error only
    when the connection fails, and when it does not, what is persisted is the
    insert of the other candidates' survivors. *)
Theorem invalid_candidate_is_skipped
    (versionString : string) (constraints : list string)
    (faults : Faults) (db : Database)
    (rows1 rows2 : list CandidateRow) (uploadID affectedPackageID : Z) :
  GoVersion.NewVersion versionString = None \/
  GoVersion.NewConstraint (GoStrings.Join constraints ",") = None ->
  versionMatchesConstraints versionString constraints = (false, false) /\
  (scanMatchesQuery (mappings_of scipSchemeToVulnerabilityLanguage) db
     = rows1 ++ {| c_dump_id := uploadID; c_vap_id := affectedPackageID;
                   c_version := versionString;
                   c_version_constraint := constraints |} :: rows2 ->
   scanFilteredVulnerabilityMatches
     (tx_Query no_faults
        (scanMatchesQuery (mappings_of scipSchemeToVulnerabilityLanguage))
        {| tx_db := db; t_vulnerability_affected_packages := None |})
     = Ok (survivors rows1 ++ survivors rows2) /\
   fst (ScanMatches faults db) = first_fault faults /\
   (first_fault faults = None ->
    exists rows' seq',
      insert_vulnerability_matches Sql.DoNothing
        (map (fun m => (UploadID m, VulnerabilityAffectedPackageID m))
             (survivors rows1 ++ survivors rows2))
        (vulnerability_matches db) (vulnerability_matches_id_seq db)
      = Ok (rows', seq') /\
      ScanMatches faults db = (None, set_matches db rows' seq'))).
Proof.
  intros Hinvalid.
  assert (versionMatchesConstraints versionString constraints = (false, false)) as E.
  { unfold versionMatchesConstraints.
    destruct Hinvalid as [-> | Hc]; [reflexivity|].
    rewrite Hc. destruct (GoVersion.NewVersion versionString); reflexivity. }
  split; [exact E|]. intros Hq.
  assert (survivors
            (scanMatchesQuery (mappings_of scipSchemeToVulnerabilityLanguage) db)
          = survivors rows1 ++ survivors rows2) as Hs.
  { rewrite Hq, survivors_app. f_equal.
    change (?s :: rows2) with ([s] ++ rows2). rewrite survivors_app.
    unfold survivors at 1. simpl. rewrite E. reflexivity. }
  split; [|split].
  - unfold scanFilteredVulnerabilityMatches, NewFilteredSliceScanner, tx_Query.
    simpl. rewrite filter_rows_survivors, Hs. reflexivity.
  - apply ScanMatches_error_is_fault.
  - intros Hnone. rewrite ScanMatches_unfold, Hnone.
    unfold staged_pairs. rewrite Hs.
    destruct (insert_DoNothing_total
                (map (fun m => (UploadID m, VulnerabilityAffectedPackageID m))
                     (survivors rows1 ++ survivors rows2))
                (vulnerability_matches db) (vulnerability_matches_id_seq db))
      as [rows' E'].
    exists rows'. eexists. split; [exact E'|]. rewrite E'. reflexivity.
Qed.

(** C2. Starting from a matches table in which the unique index holds,
    after any sequence of scans at most one row exists for a pair
    [(uploadID, affectedPackageID)]; an insert of a pair that is in the table
    already succeeds and adds no row; and a scan returns an error only when
    the connection fails. *)
Theorem matches_stay_unique
    (invocations : list Invocation) (db : Database)
    (uploadID affectedPackageID : Z) :
  unique_matches (vulnerability_matches db) ->
  (length (filter (fun m => vulnerability_matches_key m = (uploadID, affectedPackageID))
                  (vulnerability_matches (scans invocations db))) <= 1)%nat /\
  (forall rows seq,
     (uploadID, affectedPackageID) ∈ keys rows ->
     insert_vulnerability_matches Sql.DoNothing
       [(uploadID, affectedPackageID)] rows seq = Ok (rows, seq + 1)) /\
  (forall faults,
     fst (ScanMatches faults (scans invocations db)) = first_fault faults).
Proof.
  intros Hu. split; [|split].
  - apply unique_at_most_one, scans_keep_unique, Hu.
  - intros rows seq Hin.
    apply (insert_absorbs [(uploadID, affectedPackageID)] rows seq).
    intros p Hp. apply list_elem_of_singleton in Hp. subst p. exact Hin.
  - intros faults. apply ScanMatches_error_is_fault.
Qed.

(** C3. When a scan has succeeded, a second scan over the same references
    and catalog leaves the rows of the matches table as the first scan left
    them, whether the second scan succeeds or fails. *)
Theorem ScanMatches_idempotent (faults1 faults2 : Faults) (db : Database) :
  fst (ScanMatches faults1 db) = None ->
  vulnerability_matches (snd (ScanMatches faults2 (snd (ScanMatches faults1 db))))
  = vulnerability_matches (snd (ScanMatches faults1 db)).
Proof.
  rewrite (ScanMatches_unfold faults1).
  destruct (first_fault faults1); [discriminate|].
  destruct (insert_vulnerability_matches Sql.DoNothing (staged_pairs db) _ _)
    as [[rows' seq']|e] eqn:E; [|discriminate].
  intros _. simpl. rewrite ScanMatches_unfold.
  destruct (first_fault faults2); [reflexivity|].
  rewrite (staged_pairs_inputs db (set_matches db rows' seq') eq_refl eq_refl).
  simpl. rewrite insert_absorbs; [reflexivity|].
  eapply insert_covers. exact E.
Qed.

End ScanClaims.

(** Without the conflict clause the same insert is an error. *)
Lemma insert_without_clause_fails (pair : Z * Z) (rows : list MatchRow) (seq : Z) :
  pair ∈ keys rows ->
  insert_vulnerability_matches Sql.NoClause [pair] rows seq = Err ErrUniqueViolation.
Proof.
  intros Hin. simpl. rewrite bool_decide_eq_true_2; [reflexivity|].
  destruct pair. exact Hin.
Qed.

(** ** Scanning the rows of a read query *)

Section ScanRows.
Context {A R : Type} (f : R -> Result (A * Z)).

(** A property of every scanned value holds of the collected values. *)
Lemma scan_rows_Forall (P : A -> Prop) (rows : list R) (values ms : list A)
    (c0 c : Z) :
  scan_rows f rows values c0 = Ok (ms, c) ->
  Forall P values ->
  (forall row m k, row ∈ rows -> f row = Ok (m, k) -> P m) ->
  Forall P ms.
Proof.
  revert values c0. induction rows as [|row rows IH]; intros values c0; simpl.
  - intros [= <- _] Hv _. exact Hv.
  - destruct (f row) as [[m k]|e] eqn:E; simpl; [|discriminate].
    intros H Hv HP. eapply IH; [exact H| |].
    + apply Forall_app. split; [exact Hv|].
      apply Forall_singleton. eapply HP; [left|exact E].
    + intros row' m' k' Hin. apply HP. right. exact Hin.
Qed.

(** When every row scans, the values come in row order and the count is
    that of the last row. *)
Lemma scan_rows_all (g : R -> A) (k : R -> Z) (rows : list R) (values : list A)
    (c0 : Z) :
  Forall (fun row => f row = Ok (g row, k row)) rows ->
  scan_rows f rows values c0
  = Ok (values ++ map g rows, default c0 (last (map k rows))).
Proof.
  revert values c0. induction rows as [|row rows IH]; intros values c0 Hall; simpl.
  - rewrite app_nil_r. reflexivity.
  - apply Forall_cons in Hall as [E Hall]. rewrite E. simpl.
    rewrite (IH _ _ Hall), <- app_assoc. simpl. do 2 f_equal.
    destruct rows as [|row' rows']; [reflexivity|].
    simpl map. rewrite last_cons_cons.
    destruct (last (k row' :: map k rows')) eqn:El; [reflexivity|].
    apply last_None in El. discriminate.
Qed.

End ScanRows.

(** ** flattenMatches *)

Section Flatten.
Import shared.

(** Merging matches keeps any property of packages that appending the
    symbols of one package to those of a named package keeps. *)
Lemma flatten_step_Forall (Q : AffectedPackage -> Prop)
    (flattened : list VulnerabilityMatch) (m : VulnerabilityMatch) :
  (forall p p', PackageName p <> "" -> Q p -> Q p' ->
     Q (set_AffectedSymbols p (AffectedSymbols p ++ AffectedSymbols p'))) ->
  Forall (fun m => Q (Package m)) flattened ->
  Q (Package m) ->
  Forall (fun m => Q (Package m)) (flatten_step flattened m).
Proof.
  intros Hclosed Hall Hm. unfold flatten_step.
  destruct (flattened !! (length flattened - 1)%nat) as [last|] eqn:E.
  - assert (Q (Package last)) as Hlast.
    { exact (proj1 (Forall_lookup _ _) Hall _ _ E). }
    repeat case_decide.
    + apply Forall_app. split; [exact Hall|]. apply Forall_singleton, Hm.
    + apply Forall_insert; [exact Hall|]. exact Hm.
    + apply Forall_insert; [exact Hall|]. simpl. apply Hclosed; assumption.
  - apply Forall_app. split; [exact Hall|]. apply Forall_singleton, Hm.
Qed.

Lemma flattenMatches_Forall (Q : AffectedPackage -> Prop)
    (ms : list VulnerabilityMatch) :
  (forall p p', PackageName p <> "" -> Q p -> Q p' ->
     Q (set_AffectedSymbols p (AffectedSymbols p ++ AffectedSymbols p'))) ->
  Forall (fun m => Q (Package m)) ms ->
  Forall (fun m => Q (Package m)) (flattenMatches ms).
Proof.
  intros Hclosed. unfold flattenMatches.
  assert (forall acc, Forall (fun m => Q (Package m)) acc ->
                      Forall (fun m => Q (Package m)) ms ->
                      Forall (fun m => Q (Package m)) (fold_left flatten_step ms acc))
    as Hgen.
  { induction ms as [|m ms IH]; intros acc Hacc Hms; simpl; [exact Hacc|].
    apply Forall_cons in Hms as [Hm Hms].
    apply IH; [|exact Hms]. apply flatten_step_Forall; assumption. }
  apply Hgen. constructor.
Qed.

(** The rows of one match whose package has a name merge into one match:
    the package of the first row, with the symbols of all the rows in
    order. *)
Lemma flatten_group (acc : VulnerabilityMatch) (ms : list VulnerabilityMatch) :
  Forall (fun m => ID m = ID acc) ms ->
  PackageName (Package acc) <> "" ->
  fold_left flatten_step ms [acc]
  = [set_Package acc
       (set_AffectedSymbols (Package acc)
          (AffectedSymbols (Package acc)
             ++ flat_map (fun m => AffectedSymbols (Package m)) ms))].
Proof.
  revert acc. induction ms as [|m ms IH]; intros acc Hids Hname; simpl.
  - rewrite app_nil_r. destruct acc as [i u v [n l s vc f fi sy]]. reflexivity.
  - apply Forall_cons in Hids as [Hid Hids].
    unfold flatten_step at 2. simpl.
    rewrite decide_False by (intros Hne; apply Hne; symmetry; exact Hid).
    rewrite decide_False by exact Hname.
    simpl. rewrite IH; [|exact Hids|exact Hname].
    simpl. rewrite <- app_assoc. reflexivity.
Qed.

End Flatten.

(** ** Reconstruction *)

Section Reconstruction.
Import shared.

(** The scanner fails on a NULL vulnerability id and otherwise gives the
    match of the row and the count of the row. *)
Lemma scanVulnerabilityMatch_eq (s : MatchQueryRow) :
  scanVulnerabilityMatch s =
  match q_vulnerability_id s with
  | None => Err ErrScanNull
  | Some _ => Ok (row_match s, q_count s)
  end.
Proof.
  unfold scanVulnerabilityMatch, row_match, row_package.
  destruct (q_vulnerability_id s) as [vid|]; [|reflexivity]. simpl.
  destruct (decide (NullString "" (q_fixed_in s) = ""));
    destruct (decide (NullString "" (q_path s) = ""));
    destruct (decide (NullString "" (q_package_name s) = ""));
    repeat (case_decide; simpl in *; try congruence); reflexivity.
Qed.

Lemma scanVulnerabilityMatch_Ok (s : MatchQueryRow) (m : VulnerabilityMatch) (c : Z) :
  scanVulnerabilityMatch s = Ok (m, c) -> m = row_match s /\ c = q_count s.
Proof.
  rewrite scanVulnerabilityMatch_eq.
  destruct (q_vulnerability_id s); [|discriminate].
  intros [= <- <-]. split; reflexivity.
Qed.






(** What a successful scan of rows returns is the flattening of the
    matches of the rows. *)
Lemma scanVulnerabilityMatchesAndCount_Ok (rows : list MatchQueryRow)
    (ms : list VulnerabilityMatch) (c : Z) :
  scanVulnerabilityMatchesAndCount (Ok rows) = Ok (ms, c) ->
  exists scanned, ms = flattenMatches scanned /\
    forall Q : VulnerabilityMatch -> Prop,
      (forall s, s ∈ rows -> is_Some (q_vulnerability_id s) -> Q (row_match s)) ->
      Forall Q scanned.
Proof.
  unfold scanVulnerabilityMatchesAndCount, NewSliceWithCountScanner. simpl.
  destruct (scan_rows scanVulnerabilityMatch rows [] 0) as [[scanned k]|e] eqn:E;
    simpl; [|discriminate].
  intros [= <- <-]. exists scanned. split; [reflexivity|]. intros Q HQ.
  eapply scan_rows_Forall; [exact E|constructor|].
  intros s m k' Hin Hs. rewrite scanVulnerabilityMatch_eq in Hs.
  destruct (q_vulnerability_id s) eqn:Ev; [|discriminate].
  injection Hs as <- _. apply HQ; [exact Hin|]. rewrite Ev. eauto.
Qed.

(** A property of packages that merging keeps and that the package of
    every row has, holds of every returned match. *)
Lemma reconstruction_invariant (Q : AffectedPackage -> Prop)
    (rows : list MatchQueryRow) (ms : list VulnerabilityMatch) (c : Z) :
  (forall p p', PackageName p <> "" -> Q p -> Q p' ->
     Q (set_AffectedSymbols p (AffectedSymbols p ++ AffectedSymbols p'))) ->
  (forall s, s ∈ rows -> Q (Package (row_match s))) ->
  scanVulnerabilityMatchesAndCount (Ok rows) = Ok (ms, c) ->
  Forall (fun m => Q (Package m)) ms.
Proof.
  intros Hclosed Hrows Hscan.
  destruct (scanVulnerabilityMatchesAndCount_Ok _ _ _ Hscan) as (scanned & -> & Hall).
  apply flattenMatches_Forall; [exact Hclosed|].
  apply (Hall (fun m => Q (Package m))). intros s Hin _. apply Hrows, Hin.
Qed.

(** The rows of one match, each with a vulnerability id and a package name,
    reconstruct into one match: the package of the first row with the
    symbols of all the rows, and the count of the last row. *)
Lemma reconstruct_group (s : MatchQueryRow) (rows : list MatchQueryRow) :
  Forall (fun s' => q_id s' = q_id s /\ is_Some (q_vulnerability_id s')
                    /\ NullString "" (q_package_name s') <> "") (s :: rows) ->
  scanVulnerabilityMatchesAndCount (Ok (s :: rows))
  = Ok ([set_Package (row_match s)
           (set_AffectedSymbols (row_package s)
              (flat_map (fun s' => AffectedSymbols (row_package s')) (s :: rows)))],
        default 0 (last (map q_count (s :: rows)))).
Proof.
  intros Hall.
  assert (forall s', s' ∈ s :: rows -> Package (row_match s') = row_package s')
    as Hpkg.
  { intros s' Hin. pose proof (proj1 (Forall_forall _ _) Hall s' Hin) as (_ & _ & Hn).
    unfold row_match. simpl. rewrite decide_False by exact Hn. reflexivity. }
  unfold scanVulnerabilityMatchesAndCount.
  change (NewSliceWithCountScanner scanVulnerabilityMatch (Ok (s :: rows)))
    with (scan_rows scanVulnerabilityMatch (s :: rows) [] 0).
  rewrite (scan_rows_all scanVulnerabilityMatch row_match q_count).
  - unfold rbind, flattenMatches. simpl fst. simpl snd. simpl app.
    change (map row_match (s :: rows)) with (row_match s :: map row_match rows).
    simpl fold_left. unfold flatten_step at 2. simpl.
    rewrite flatten_group.
    + assert (flat_map (fun m => AffectedSymbols (Package m)) (map row_match rows)
              = flat_map (fun s' => AffectedSymbols (row_package s')) rows) as ->.
      { assert (forall s', s' ∈ rows -> Package (row_match s') = row_package s')
          as Hpkg' by (intros s' Hin; apply Hpkg; right; exact Hin).
        clear -Hpkg'. induction rows as [|s' rows IH]; [reflexivity|].
        cbn [map flat_map]. rewrite (Hpkg' s') by left. f_equal.
        apply IH. intros s'' Hin. apply Hpkg'. right. exact Hin. }
      rewrite (Hpkg s) by left. reflexivity.
    + apply Forall_map. apply Forall_cons in Hall as [_ Hall].
      eapply Forall_impl; [exact Hall|]. intros s' (Hid & _ & _). exact Hid.
    + rewrite (Hpkg s) by left. simpl.
      apply Forall_cons in Hall as [(_ & _ & Hn) _]. exact Hn.
  - eapply Forall_impl; [exact Hall|]. intros s' (_ & [vid Hv] & _).
    rewrite scanVulnerabilityMatch_eq, Hv. reflexivity.
Qed.

End Reconstruction.

(** ** Claims about reconstruction *)

Section ReconstructionClaims.
Import shared.

(** C5 (what the code does). Every symbol entry of every returned match
    has an empty list of symbol names, whatever the rows held: the symbols
    column is scanned into a copy of the slice. *)
Theorem symbol_names_are_lost (rows : list MatchQueryRow)
    (ms : list VulnerabilityMatch) (c : Z) :
  scanVulnerabilityMatchesAndCount (Ok rows) = Ok (ms, c) ->
  Forall (fun m => Forall (fun sy => Symbols sy = [])
                          (AffectedSymbols (Package m))) ms.
Proof.
  apply (reconstruction_invariant
           (fun p => Forall (fun sy => Symbols sy = []) (AffectedSymbols p))).
  - intros p p' _ Hp Hp'. simpl. apply Forall_app. split; assumption.
  - intros s _. unfold row_match, row_package. simpl.
    repeat case_decide; simpl; repeat constructor.
Qed.

(** C9. A scanned package that is attached to its match has no fixed-in
    when the row held the empty string (or NULL) and the value of the row
    otherwise; no returned match has the empty string as its fixed-in; and
    the match reconstructed from the rows of one named package has the
    fixed-in of its rows, normalised in this way. *)
Theorem fixedIn_absent_or_literal :
  (forall s m c,
     scanVulnerabilityMatch s = Ok (m, c) ->
     PackageName (Package m) <> "" ->
     FixedIn (Package m) = empty_as_null (q_fixed_in s)) /\
  (forall rows ms c,
     scanVulnerabilityMatchesAndCount (Ok rows) = Ok (ms, c) ->
     Forall (fun m => FixedIn (Package m) <> Some "") ms) /\
  (forall s rows,
     Forall (fun s' => q_id s' = q_id s /\ is_Some (q_vulnerability_id s')
                       /\ NullString "" (q_package_name s') <> "") (s :: rows) ->
     exists m c,
       scanVulnerabilityMatchesAndCount (Ok (s :: rows)) = Ok ([m], c) /\
       FixedIn (Package m) = empty_as_null (q_fixed_in s)).
Proof.
  assert (forall s, FixedIn (row_package s) = empty_as_null (q_fixed_in s)) as Hrow.
  { intros s. unfold row_package. simpl.
    destruct (q_fixed_in s) as [v|]; simpl; repeat case_decide; congruence. }
  split; [|split].
  - intros s m c Hs Hname. apply scanVulnerabilityMatch_Ok in Hs as [-> _].
    unfold row_match in *. simpl in *. case_decide; [|apply Hrow].
    contradiction Hname. reflexivity.
  - intros rows ms c.
    apply (reconstruction_invariant (fun p => FixedIn p <> Some "")).
    + intros p p' _ Hp _. exact Hp.
    + intros s _. unfold row_match. simpl. case_decide; [discriminate|].
      rewrite Hrow. destruct (q_fixed_in s) as [v|]; simpl; [|discriminate].
      repeat case_decide; congruence.
  - intros s rows Hall. eexists. eexists. split; [apply reconstruct_group, Hall|].
    simpl. apply Hrow.
Qed.


End ReconstructionClaims.

(** ** The list query and its count *)

Lemma order_by_Permutation {A} (key : A -> Z) (rows : list A) :
  Sql.order_by key rows ≡ₚ rows.
Proof. unfold Sql.order_by. apply merge_sort_Permutation. Qed.

(** Every row of the join of a match with a package carries the count of
    the match and a vulnerability id, and there is at least one. *)
Lemma join_symbols_rows (db : Database) (m : MatchRow) (count : Z)
    (vap : AffectedPackageRow) :
  join_symbols db m count vap <> [] /\
  Forall (fun s => q_count s = count /\ is_Some (q_vulnerability_id s))
         (join_symbols db m count vap).
Proof.
  unfold join_symbols.
  destruct (filter _ (Sql.order_by vas_id (vulnerability_affected_symbols db)))
    as [|vas symbols].
  - split; [discriminate|]. repeat constructor. simpl. eauto.
  - split; [discriminate|]. apply Forall_map, Forall_forall.
    intros vas' _. simpl. eauto.
Qed.

Lemma flat_map_not_nil {A B} (f : A -> list B) (l : list A) :
  l <> [] -> (forall x, x ∈ l -> f x <> []) -> flat_map f l <> [].
Proof.
  destruct l as [|x l]; [congruence|]. intros _ Hf. simpl.
  specialize (Hf x ltac:(left)). destruct (f x); [congruence|discriminate].
Qed.

(** Every row of the join of a match carries the count of the match, there
    is at least one, and when the catalog has the package of the match every
    row has a vulnerability id. *)
Lemma join_packages_rows (db : Database) (m : MatchRow) (count : Z) :
  join_packages db (m, count) <> [] /\
  Forall (fun s => q_count s = count) (join_packages db (m, count)) /\
  ((exists vap, vap ∈ vulnerability_affected_packages db /\
                vap_id vap = m_vulnerability_affected_package_id m) ->
   Forall (fun s => is_Some (q_vulnerability_id s)) (join_packages db (m, count))).
Proof.
  unfold join_packages.
  destruct (filter _ (Sql.order_by vap_id (vulnerability_affected_packages db)))
    as [|vap packages] eqn:E.
  - split; [discriminate|]. split; [repeat constructor|].
    intros (vap & Hin & Hid). exfalso.
    eapply (filter_nil_not_elem_of _ _ vap E); [exact Hid|].
    rewrite order_by_Permutation. exact Hin.
  - split; [|split].
    + apply flat_map_not_nil; [discriminate|].
      intros x _. apply join_symbols_rows.
    + apply Forall_flat_map, Forall_forall. intros x _.
      eapply Forall_impl; [apply join_symbols_rows|]. intros s [Hc _]. exact Hc.
    + intros _. apply Forall_flat_map, Forall_forall. intros x _.
      eapply Forall_impl; [apply join_symbols_rows|]. intros s [_ Hv]. exact Hv.
Qed.

(** C6. For a matches table of N rows whose matches all refer to the
    catalog, and any limit and offset that select a non-empty page
    ([0 < limit], [0 <= offset < N]), the one query returns at least one row,
    every row of it carries the count N, and [GetVulnerabilityMatches]
    returns N as its total count. *)
Theorem total_count_is_table_size (db : Database)
    (args : shared.GetVulnerabilityMatchesArgs) :
  foreign_key_holds db ->
  0 < shared.Limit args ->
  0 <= shared.Offset args < Z.of_nat (length (vulnerability_matches db)) ->
  (exists rows,
     getVulnerabilityMatchesQuery db (shared.Limit args) (shared.Offset args)
       = Ok rows /\
     rows <> [] /\
     Forall (fun s => q_count s = Z.of_nat (length (vulnerability_matches db))) rows) /\
  exists ms, GetVulnerabilityMatches db args
             = Ok (ms, Z.of_nat (length (vulnerability_matches db))).
Proof.
  intros Hfk Hlimit Hoffset.
  set (N := Z.of_nat (length (vulnerability_matches db))) in *.
  set (page := take (Z.to_nat (shared.Limit args))
                 (drop (Z.to_nat (shared.Offset args))
                    (Sql.order_by m_id (vulnerability_matches db)))).
  assert (getVulnerabilityMatchesQuery db (shared.Limit args) (shared.Offset args)
          = Ok (flat_map (join_packages db) (map (fun m => (m, N)) page))) as Hq.
  { unfold getVulnerabilityMatchesQuery, limited_matches, Sql.limit_offset.
    rewrite (proj2 (Z.ltb_ge _ _)) by lia.
    rewrite (proj2 (Z.ltb_ge _ _)) by lia. reflexivity. }
  assert (page <> []) as Hpage.
  { intros Hnil. apply (f_equal length) in Hnil. unfold page in Hnil.
    rewrite length_take, length_drop in Hnil.
    rewrite (Permutation_length (order_by_Permutation m_id _)) in Hnil.
    simpl in Hnil. unfold N in Hoffset. lia. }
  assert (forall m, m ∈ page -> m ∈ vulnerability_matches db) as Hsub.
  { intros m Hin. unfold page in Hin.
    apply subseteq_take, subseteq_drop in Hin.
    rewrite order_by_Permutation in Hin. exact Hin. }
  set (rows := flat_map (join_packages db) (map (fun m => (m, N)) page)) in *.
  assert (rows <> []) as Hrows.
  { apply flat_map_not_nil.
    - destruct page; [congruence|discriminate].
    - intros [m c] _. apply join_packages_rows. }
  assert (Forall (fun s => q_count s = N /\ is_Some (q_vulnerability_id s)) rows)
    as Hall.
  { apply Forall_flat_map, Forall_map, Forall_forall. intros m Hin.
    destruct (join_packages_rows db m N) as (_ & Hc & Hv).
    specialize (Hv (Hfk m (Hsub m Hin))).
    apply Forall_forall. intros s Hs. split.
    - exact (proj1 (Forall_forall _ _) Hc s Hs).
    - exact (proj1 (Forall_forall _ _) Hv s Hs). }
  split.
  - exists rows. split; [exact Hq|]. split; [exact Hrows|].
    eapply Forall_impl; [exact Hall|]. intros s [Hc _]. exact Hc.
  - unfold GetVulnerabilityMatches. rewrite Hq.
    unfold scanVulnerabilityMatchesAndCount.
    change (NewSliceWithCountScanner scanVulnerabilityMatch (Ok rows))
      with (scan_rows scanVulnerabilityMatch rows [] 0).
    rewrite (scan_rows_all scanVulnerabilityMatch row_match q_count).
    + simpl. eexists. do 2 f_equal.
      destruct (last (map q_count rows)) as [c|] eqn:El.
      * simpl. apply last_Some_elem_of in El.
        apply list_elem_of_fmap in El as (s & -> & Hs).
        exact (proj1 (proj1 (Forall_forall _ _) Hall s Hs)).
      * apply last_None in El. destruct rows; [congruence|discriminate].
    + eapply Forall_impl; [exact Hall|]. intros s (_ & [vid Hv]).
      rewrite scanVulnerabilityMatch_eq, Hv. reflexivity.
Qed.

(** ** Candidate generation *)

Module LikeFacts.
Import Sql.

Lemma like_percent (p s : list ascii) :
  like ("%"%char :: p) s
  = like p s || match s with [] => false | _ :: s' => like ("%"%char :: p) s' end.
Proof. destruct s; reflexivity. Qed.

Lemma like_literal (c : ascii) (p s : list ascii) :
  is_wildcard c = false ->
  like (c :: p) s
  = match s with [] => false | x :: s' => Ascii.eqb x c && like p s' end.
Proof.
  unfold is_wildcard. intros H.
  apply orb_false_elim in H as [H Hb]. apply orb_false_elim in H as [Hp Hu].
  simpl. rewrite Hp, Hu, Hb. reflexivity.
Qed.

(** A pattern of [%] alone matches everything. *)
Lemma like_percent_only (s : list ascii) : like ["%"%char] s = true.
Proof.
  induction s as [|c s IH]; [reflexivity|].
  rewrite like_percent. simpl like at 1. rewrite IH. reflexivity.
Qed.

(** A leading [%] lets the rest of the pattern match some suffix. *)
Lemma like_percent_iff (p s : list ascii) :
  like ("%"%char :: p) s = true <-> exists a b, s = a ++ b /\ like p b = true.
Proof.
  induction s as [|c s IH]; rewrite like_percent.
  - rewrite orb_false_r. split.
    + intros H. exists [], []. split; [reflexivity|exact H].
    + intros (a & b & Hs & H). symmetry in Hs.
      apply app_eq_nil in Hs as [_ ->]. exact H.
  - rewrite orb_true_iff, IH. split.
    + intros [H | (a & b & -> & H)].
      * exists [], (c :: s). split; [reflexivity|exact H].
      * exists (c :: a), b. split; [reflexivity|exact H].
    + intros (a & b & Hs & H). destruct a as [|c' a]; simpl in Hs.
      * left. rewrite Hs. exact H.
      * right. injection Hs as -> ->. exists a, b. split; [reflexivity|exact H].
Qed.

(** Bytes that are no wildcards match themselves and nothing else. *)
Lemma like_literals (lit p s : list ascii) :
  forallb (fun c => negb (is_wildcard c)) lit = true ->
  like (lit ++ p) s = true <-> exists s', s = lit ++ s' /\ like p s' = true.
Proof.
  revert s. induction lit as [|c lit IH]; intros s Hlit; simpl app.
  - split; [intros H; exists s; split; [reflexivity|exact H]|].
    intros (s' & -> & H). exact H.
  - simpl in Hlit. apply andb_true_iff in Hlit as [Hc Hlit].
    apply negb_true_iff in Hc. rewrite like_literal by exact Hc.
    destruct s as [|x s].
    + split; [discriminate|]. intros (s' & Hs & _). discriminate.
    + rewrite andb_true_iff, (IH s Hlit). split.
      * intros [Hx (s' & -> & H)]. apply Ascii.eqb_eq in Hx as ->.
        exists s'. split; [reflexivity|exact H].
      * intros (s' & Hs & H). injection Hs as -> ->.
        split; [apply Ascii.eqb_refl|]. exists s'. split; [reflexivity|exact H].
Qed.

Lemma HasPrefix_iff (s prefix : list ascii) :
  HasPrefix s prefix = true <-> exists b, s = prefix ++ b.
Proof.
  revert s. induction prefix as [|p prefix IH]; intros s.
  - split; [intros _; exists s; reflexivity|].
    intros _. destruct s; reflexivity.
  - destruct s as [|c s]; simpl.
    + split; [discriminate|]. intros (b & Hs). discriminate.
    + rewrite andb_true_iff, IH. split.
      * intros [Hc (b & ->)]. apply Ascii.eqb_eq in Hc as ->. exists b. reflexivity.
      * intros (b & Hs). injection Hs as -> ->.
        split; [apply Ascii.eqb_refl|]. exists b. reflexivity.
Qed.

Lemma contains_cons (c : ascii) (s substr : list ascii) :
  contains (c :: s) substr = HasPrefix (c :: s) substr || contains s substr.
Proof. reflexivity. Qed.

Lemma contains_iff (s substr : list ascii) :
  contains s substr = true <-> exists a b, s = a ++ substr ++ b.
Proof.
  induction s as [|c s IH]; [change (contains [] substr)
    with (HasPrefix [] substr || false)|rewrite contains_cons].
  - rewrite orb_false_r, HasPrefix_iff. split.
    + intros (b & Hs). exists [], b. exact Hs.
    + intros (a & b & Hs). symmetry in Hs. apply app_eq_nil in Hs as [-> Hs].
      exists b. symmetry. exact Hs.
  - rewrite orb_true_iff, HasPrefix_iff, IH. split.
    + intros [(b & Hs) | (a & b & ->)].
      * exists [], b. exact Hs.
      * exists (c :: a), b. reflexivity.
    + intros (a & b & Hs). destruct a as [|c' a]; simpl in Hs.
      * left. exists b. exact Hs.
      * right. injection Hs as -> ->. exists a, b. reflexivity.
Qed.

Lemma list_ascii_of_string_app (a b : string) :
  list_ascii_of_string (a ++ b)%string
  = list_ascii_of_string a ++ list_ascii_of_string b.
Proof. induction a as [|c a IH]; simpl; [reflexivity|]. rewrite IH. reflexivity. Qed.

(** For a name without wildcard bytes the join condition is substring
    containment. *)
Lemma LIKE_is_Contains (s name : string) :
  forallb (fun c => negb (is_wildcard c)) (list_ascii_of_string name) = true ->
  LIKE s ("%" ++ name ++ "%")%string = Contains s name.
Proof.
  intros Hplain. apply eq_true_iff_eq. unfold LIKE, Contains.
  change ("%" ++ name ++ "%")%string with (String "%" (name ++ "%")%string).
  cbn [list_ascii_of_string]. rewrite list_ascii_of_string_app.
  rewrite like_percent_iff, contains_iff.
  split.
  - intros (a & b & Hs & H). apply (like_literals _ _ _ Hplain) in H as (b' & -> & _).
    exists a, b'. exact Hs.
  - intros (a & b & Hs). exists a, (list_ascii_of_string name ++ b).
    split; [exact Hs|]. apply (like_literals _ _ _ Hplain).
    exists b. split; [reflexivity|apply like_percent_only].
Qed.

End LikeFacts.

(** The condition built from a map holds of a pair exactly when the map
    sends the scheme of the reference to the language of the package. *)
Lemma mappings_hold_lookup (mapping : gmap string string)
    (r : Reference) (vap : AffectedPackageRow) :
  mappings_hold (mappings_of mapping) r vap = true <->
  mapping !! r_scheme r = Some (vap_language vap).
Proof.
  unfold mappings_hold, mappings_of. rewrite existsb_exists. split.
  - intros ([scheme language] & Hin & H). apply andb_true_iff in H as [Hs Hl].
    apply bool_decide_eq_true in Hs, Hl. simpl in Hs, Hl. subst.
    apply in_map_iff in Hin as (scheme' & [= <- Hd] & Hin).
    apply list_elem_of_In in Hin. unfold schemes_of, sort_Strings in Hin.
    rewrite merge_sort_Permutation in Hin.
    apply list_elem_of_fmap in Hin as ([k v] & -> & Hkv).
    apply elem_of_map_to_list in Hkv. simpl in *. rewrite Hkv in *. simpl in *.
    congruence.
  - intros Hlookup. exists (r_scheme r, vap_language vap). split.
    + apply in_map_iff. exists (r_scheme r). rewrite Hlookup. split; [reflexivity|].
      apply list_elem_of_In. unfold schemes_of, sort_Strings.
      rewrite merge_sort_Permutation.
      apply list_elem_of_fmap. exists (r_scheme r, vap_language vap).
      split; [reflexivity|]. apply elem_of_map_to_list. exact Hlookup.
    + simpl. rewrite !bool_decide_eq_true_2 by reflexivity. reflexivity.
Qed.

(** The rows of [scanMatchesQuery] are the candidates of the joined pairs
    that pass the condition. *)
Lemma scanMatchesQuery_rows (mappings : list (string * string)) (db : Database)
    (row : CandidateRow) :
  In row (scanMatchesQuery mappings db) <->
  exists r vap,
    In r (lsif_references db) /\ In vap (vulnerability_affected_packages db) /\
    row = candidate r vap /\
    name_like r vap = true /\ mappings_hold mappings r vap = true.
Proof.
  unfold scanMatchesQuery. rewrite in_flat_map. split.
  - intros (vap & Hvap & Hin). apply in_flat_map in Hin as (r & Hr & Hin).
    destruct (name_like r vap && mappings_hold mappings r vap) eqn:E;
      [|contradiction].
    destruct Hin as [<-|[]]. apply andb_true_iff in E as [Hl Hm].
    exists r, vap. auto.
  - intros (r & vap & Hr & Hvap & -> & Hl & Hm).
    exists vap. split; [exact Hvap|]. apply in_flat_map. exists r.
    split; [exact Hr|]. rewrite Hl, Hm. left. reflexivity.
Qed.

(** When no package name of the catalog has a wildcard byte, a candidate
    is generated exactly for the pairs of a reference and a package where the
    map sends the scheme to the language of the package and the name of the
    reference contains the package name. *)
Lemma candidates_of_plain_names (db : Database) (row : CandidateRow) :
  (forall vap, In vap (vulnerability_affected_packages db) ->
     forallb (fun c => negb (is_wildcard c))
             (list_ascii_of_string (vap_package_name vap)) = true) ->
  In row (scanMatchesQuery (mappings_of scipSchemeToVulnerabilityLanguage) db) <->
  exists r vap,
    In r (lsif_references db) /\ In vap (vulnerability_affected_packages db) /\
    row = candidate r vap /\
    scipSchemeToVulnerabilityLanguage !! r_scheme r = Some (vap_language vap) /\
    Contains (r_name r) (vap_package_name vap) = true.
Proof.
  intros Hplain. rewrite scanMatchesQuery_rows. split.
  - intros (r & vap & Hr & Hvap & -> & Hl & Hm). exists r, vap.
    repeat split; try assumption.
    + apply mappings_hold_lookup. exact Hm.
    + unfold name_like in Hl.
      rewrite LikeFacts.LIKE_is_Contains in Hl by (apply Hplain, Hvap). exact Hl.
  - intros (r & vap & Hr & Hvap & -> & Hm & Hc). exists r, vap.
    repeat split; try assumption.
    + unfold name_like.
      rewrite LikeFacts.LIKE_is_Contains by (apply Hplain, Hvap). exact Hc.
    + apply mappings_hold_lookup. exact Hm.
Qed.

(** C8 (what the code does). The join condition is a [LIKE] pattern built
    from the package name as it is: for the package [left_pad] and a
    reference named [left-pad], whose name does not contain the package name,
    a candidate is generated, and a scan persists a match for it. *)
Theorem like_matches_more_than_substrings :
  Contains (r_name Scenario.lookalike) (vap_package_name Scenario.underscored)
    = false /\
  scipSchemeToVulnerabilityLanguage !! r_scheme Scenario.lookalike
    = Some (vap_language Scenario.underscored) /\
  scanMatchesQuery (mappings_of scipSchemeToVulnerabilityLanguage)
    Scenario.lookalike_db
    = [candidate Scenario.lookalike Scenario.underscored] /\
  vulnerability_matches
    (snd (@ScanMatches DecimalVersions.library no_faults Scenario.lookalike_db))
    = [ {| m_id := 1; m_upload_id := 12;
           m_vulnerability_affected_package_id := 6 |} ].
Proof. repeat split; vm_compute; reflexivity. Qed.

(** ** The scenario, run *)

Example scenario_scan :
  @ScanMatches DecimalVersions.library no_faults Scenario.before
  = (None, Scenario.after) /\
  vulnerability_matches Scenario.after
  = [ {| m_id := 1; m_upload_id := 10; m_vulnerability_affected_package_id := 5 |} ].
Proof. split; vm_compute; reflexivity. Qed.

Example scenario_rows :
  getVulnerabilityMatchesQuery Scenario.after 5 0 = Ok Scenario.rows_with_symbols /\
  getVulnerabilityMatchesQuery Scenario.after_without_symbols 5 0
  = Ok [Scenario.row_without_symbol].
Proof. split; vm_compute; reflexivity. Qed.

Example scenario_list :
  GetVulnerabilityMatches Scenario.after {| shared.Limit := 5; shared.Offset := 0 |}
  = Ok ([Scenario.reconstructed], 1).
Proof. vm_compute. reflexivity. Qed.

Example scenario_by_id :
  VulnerabilityMatchByID Scenario.after 1 = Ok (Some Scenario.reconstructed) /\
  VulnerabilityMatchByID Scenario.after 2 = Ok None.
Proof. split; vm_compute; reflexivity. Qed.

(** ** The claims at the scenario *)

Lemma invalid_candidate_is_skipped_witness :
  @versionMatchesConstraints DecimalVersions.library "abc" [">=1.0.0"; "<1.5.0"]
  = (false, false) /\
  fst (@ScanMatches DecimalVersions.library no_faults Scenario.before) = None.
Proof.
  pose proof (@invalid_candidate_is_skipped DecimalVersions.library
                "abc" [">=1.0.0"; "<1.5.0"] no_faults Scenario.before
                [] [candidate Scenario.reference Scenario.package] 11 5
                (or_introl eq_refl)) as [Heval Hscan].
  split; [exact Heval|].
  exact (proj1 (proj2 (Hscan eq_refl))).
Defined.

Lemma matches_stay_unique_witness :
  (length (filter (fun m => vulnerability_matches_key m = (10%Z, 5%Z))
             (vulnerability_matches
                (@scans DecimalVersions.library Scenario.twice Scenario.before)))
   <= 1)%nat.
Proof.
  exact (proj1 (@matches_stay_unique DecimalVersions.library
                  Scenario.twice Scenario.before 10 5 (NoDup_nil_2 (A := Z * Z)))).
Defined.

Lemma ScanMatches_idempotent_witness :
  vulnerability_matches
    (snd (@ScanMatches DecimalVersions.library no_faults Scenario.after))
  = vulnerability_matches Scenario.after.
Proof.
  exact (@ScanMatches_idempotent DecimalVersions.library
           no_faults no_faults Scenario.before eq_refl).
Defined.


Lemma symbol_names_are_lost_witness :
  Forall (fun m => Forall (fun sy => shared.Symbols sy = [])
                          (shared.AffectedSymbols (shared.Package m)))
         [Scenario.reconstructed].
Proof.
  apply (symbol_names_are_lost Scenario.rows_with_symbols [Scenario.reconstructed] 1).
  vm_compute. reflexivity.
Defined.

Lemma total_count_is_table_size_witness :
  exists ms,
    GetVulnerabilityMatches Scenario.after {| shared.Limit := 5; shared.Offset := 0 |}
    = Ok (ms, 1).
Proof.
  apply (total_count_is_table_size Scenario.after
           {| shared.Limit := 5; shared.Offset := 0 |}).
  - intros m Hin. exists Scenario.package. split; [left|].
    vm_compute in Hin. apply list_elem_of_singleton in Hin. subst m. reflexivity.
  - simpl. lia.
  - vm_compute. split; [discriminate|reflexivity].
Defined.

Lemma fixedIn_absent_or_literal_witness :
  exists m c,
    scanVulnerabilityMatchesAndCount (Ok Scenario.rows_with_symbols) = Ok ([m], c) /\
    shared.FixedIn (shared.Package m) = None.
Proof.
  apply (proj2 (proj2 fixedIn_absent_or_literal)
           (Scenario.row (Some "bar/parse.go") (Some ["Parse"; "MustParse"]))).
  repeat constructor; simpl; eauto; discriminate.
Defined.


(** * Further properties *)

(** ** flattenMatches, step by step *)

Section FlattenSteps.
Import shared.

Lemma flatten_step_nil (m : VulnerabilityMatch) : flatten_step [] m = [m].
Proof. reflexivity. Qed.

(** A step looks at the last match only: it appends the next match when
    the ids differ and merges it into the last one when they agree. *)
Lemma flatten_step_snoc (acc : list VulnerabilityMatch) (x m : VulnerabilityMatch) :
  flatten_step (acc ++ [x]) m
  = if decide (ID x <> ID m) then (acc ++ [x]) ++ [m]
    else acc ++ [merge_match x m].
Proof.
  unfold flatten_step, merge_match.
  replace (length (acc ++ [x]) - 1)%nat with (length acc)
    by (rewrite length_app; simpl; lia).
  rewrite list_lookup_middle by reflexivity.
  assert (forall y, <[length acc := y]> (acc ++ [x]) = acc ++ [y]) as Hins.
  { intros y. rewrite insert_app_r_alt by lia.
    rewrite Nat.sub_diag. reflexivity. }
  repeat case_decide; rewrite ?Hins; reflexivity.
Qed.

Lemma merge_match_ID (x m : VulnerabilityMatch) : ID (merge_match x m) = ID x.
Proof. unfold merge_match. case_decide; reflexivity. Qed.

(** The matches of one id fold into the last match of the accumulator. *)
Lemma fold_same_id (g acc : list VulnerabilityMatch) (x : VulnerabilityMatch) :
  Forall (fun m => ID m = ID x) g ->
  fold_left flatten_step g (acc ++ [x]) = acc ++ [fold_left merge_match g x].
Proof.
  revert x. induction g as [|m g IH]; intros x Hall; [reflexivity|].
  apply Forall_cons in Hall as [Hm Hall]. cbn [fold_left].
  rewrite flatten_step_snoc, decide_False by (intros Hne; apply Hne; congruence).
  apply IH. eapply Forall_impl; [exact Hall|].
  intros m' Hm'. rewrite merge_match_ID. exact Hm'.
Qed.

Lemma fold_merge_match_ID (g : list VulnerabilityMatch) (x : VulnerabilityMatch) :
  ID (fold_left merge_match g x) = ID x.
Proof.
  revert x. induction g as [|m g IH]; intros x; [reflexivity|].
  cbn [fold_left]. rewrite IH. apply merge_match_ID.
Qed.

(** The ids of the flattened list follow the ids of the input, an id that
    repeats the one before it being dropped. *)
Lemma flatten_step_ids (acc : list VulnerabilityMatch) (m : VulnerabilityMatch) :
  map ID (flatten_step acc m)
  = if decide (last (map ID acc) = Some (ID m)) then map ID acc
    else map ID acc ++ [ID m].
Proof.
  destruct acc as [|x acc _] using rev_ind.
  - reflexivity.
  - rewrite flatten_step_snoc, map_app. simpl map. rewrite last_snoc.
    repeat case_decide; try congruence.
    + rewrite !map_app. reflexivity.
    + rewrite map_app. simpl. rewrite merge_match_ID. reflexivity.
Qed.

(** Flattening keeps every property that the ids of the input have. *)
Lemma flattenMatches_Forall_ID (P : Z -> Prop) (ms : list VulnerabilityMatch) :
  Forall (fun m => P (ID m)) ms -> Forall (fun m => P (ID m)) (flattenMatches ms).
Proof.
  unfold flattenMatches.
  assert (forall acc, Forall (fun m => P (ID m)) acc ->
                      Forall (fun m => P (ID m)) ms ->
                      Forall (fun m => P (ID m)) (fold_left flatten_step ms acc))
    as Hgen.
  { induction ms as [|m ms IH]; intros acc Hacc Hms; [exact Hacc|].
    apply Forall_cons in Hms as [Hm Hms]. cbn [fold_left].
    apply IH; [|exact Hms].
    destruct acc as [|x acc _] using rev_ind; [repeat constructor; exact Hm|].
    rewrite flatten_step_snoc. case_decide.
    - apply Forall_app. split; [exact Hacc|repeat constructor; exact Hm].
    - apply Forall_app in Hacc as [Hacc Hx]. apply Forall_inv in Hx.
      apply Forall_app. split; [exact Hacc|].
      apply Forall_singleton. rewrite merge_match_ID. exact Hx. }
  intros Hms. apply Hgen; [constructor|exact Hms].
Qed.

End FlattenSteps.

(** ** flattenMatches groups neighbours *)

Section FlattenGroups.
Import shared.

Lemma no_adjacent_repeat_snoc (ids : list Z) (id : Z) :
  no_adjacent_repeat (ids ++ [id]) <->
  no_adjacent_repeat ids /\ last ids <> Some id.
Proof.
  unfold no_adjacent_repeat. split.
  - intros H. split.
    + intros i a b Ha Hb. apply (H i a b).
      * rewrite lookup_app_l; [exact Ha|]. apply lookup_lt_Some in Ha. exact Ha.
      * rewrite lookup_app_l; [exact Hb|]. apply lookup_lt_Some in Hb. exact Hb.
    + intros Hlast. rewrite last_lookup in Hlast.
      destruct ids as [|z ids]; [discriminate|]. simpl pred in Hlast.
      refine (H (length ids) id id _ _ eq_refl).
      * rewrite lookup_app_l by (simpl; lia). exact Hlast.
      * apply (list_lookup_middle (z :: ids) [] id). reflexivity.
  - intros [H Hlast] i a b Ha Hb.
    apply lookup_snoc_Some in Hb as [[Hlt Hb] | [Hlen ->]].
    + apply (H i a b); [|exact Hb].
      rewrite lookup_app_l in Ha by lia. exact Ha.
    + intros ->. apply Hlast. rewrite last_lookup, <- Hlen. simpl.
      rewrite lookup_app_l in Ha by lia. exact Ha.
Qed.

Lemma fold_flatten_step_adjacent (ms acc : list VulnerabilityMatch) :
  no_adjacent_repeat (map ID acc) ->
  no_adjacent_repeat (map ID (fold_left flatten_step ms acc)).
Proof.
  revert acc. induction ms as [|m ms IH]; intros acc Hacc; [exact Hacc|].
  cbn [fold_left]. apply IH. rewrite flatten_step_ids.
  case_decide; [exact Hacc|]. apply no_adjacent_repeat_snoc. split; assumption.
Qed.

(** X1. No two neighbours of the flattened list have the same id, whatever
    the input. *)
Theorem flattenMatches_no_adjacent_repeat (ms : list VulnerabilityMatch) :
  no_adjacent_repeat (map ID (flattenMatches ms)).
Proof.
  apply fold_flatten_step_adjacent. intros i a b Ha. discriminate Ha.
Qed.

(** A list in which no match is followed by a match of its id is left as
    it is. *)
Lemma flattenMatches_fixed (ms : list VulnerabilityMatch) :
  no_adjacent_repeat (map ID ms) -> flattenMatches ms = ms.
Proof.
  unfold flattenMatches.
  induction ms as [|x ms IH] using rev_ind; intros Hms; [reflexivity|].
  rewrite map_app in Hms. apply no_adjacent_repeat_snoc in Hms as [Hms Hlast].
  rewrite fold_left_app. cbn [fold_left]. rewrite (IH Hms).
  destruct ms as [|y ms _] using rev_ind; [reflexivity|].
  rewrite flatten_step_snoc, decide_True; [reflexivity|].
  intros Heq. apply Hlast. rewrite map_app. simpl map. rewrite last_snoc.
  congruence.
Qed.

(** X2. Flattening leaves a list without such neighbours as it is, so
    flattening twice is flattening once. *)
Theorem flattenMatches_idempotent (ms : list VulnerabilityMatch) :
  (no_adjacent_repeat (map ID ms) -> flattenMatches ms = ms) /\
  flattenMatches (flattenMatches ms) = flattenMatches ms.
Proof.
  split; [apply flattenMatches_fixed|].
  apply flattenMatches_fixed, fold_flatten_step_adjacent.
  intros i a b Ha. discriminate Ha.
Qed.

(** The matches of one id flatten into one match. *)
Lemma flattenMatches_one_group (x : VulnerabilityMatch) (g : list VulnerabilityMatch) :
  Forall (fun m => ID m = ID x) g ->
  flattenMatches (x :: g) = [fold_left merge_match g x].
Proof.
  intros Hall. unfold flattenMatches. cbn [fold_left]. rewrite flatten_step_nil.
  exact (fold_same_id g [] x Hall).
Qed.

(** Groups of matches, each of one id and no two of the same id, flatten
    group by group. *)
Lemma flattenMatches_groups {A} (key : A -> Z) (group : A -> list VulnerabilityMatch)
    (items : list A) :
  NoDup (map key items) ->
  (forall a, a ∈ items -> group a <> [] /\ Forall (fun m => ID m = key a) (group a)) ->
  flattenMatches (flat_map group items)
  = flat_map (fun a => flattenMatches (group a)) items.
Proof.
  unfold flattenMatches at 1.
  induction items as [|a items IH] using rev_ind; intros Hnd Hgroups; [reflexivity|].
  rewrite map_app in Hnd. apply NoDup_app in Hnd as (Hnd & Hfresh & _).
  rewrite !flat_map_app, fold_left_app. simpl flat_map. rewrite !app_nil_r.
  rewrite IH; [|exact Hnd|intros a' Hin; apply Hgroups, elem_of_app; left; exact Hin].
  destruct (Hgroups a) as [Hne Hids]; [apply elem_of_app; right; left|].
  destruct (group a) as [|x g]; [congruence|].
  apply Forall_cons in Hids as [Hx Hids].
  assert (Forall (fun m => ID m = ID x) g) as Hg
    by (eapply Forall_impl; [exact Hids|]; intros m Hm; congruence).
  rewrite (flattenMatches_one_group x g Hg). cbn [fold_left].
  set (done := flat_map (fun a => flattenMatches (group a)) items).
  assert (flatten_step done x = done ++ [x]) as ->.
  { assert (Forall (fun m => ID m ∈ map key items) done) as Hdone.
    { unfold done. apply Forall_flat_map, Forall_forall. intros a' Hin.
      destruct (Hgroups a') as [_ Hids']; [apply elem_of_app; left; exact Hin|].
      apply (flattenMatches_Forall_ID (fun id => id ∈ map key items)).
      eapply Forall_impl; [exact Hids'|]. intros m ->.
      apply list_elem_of_fmap_2. exact Hin. }
    destruct done as [|y done' _] using rev_ind; [reflexivity|].
    rewrite flatten_step_snoc, decide_True; [reflexivity|].
    intros Heq. apply Forall_app in Hdone as [_ Hy].
    apply Forall_inv in Hy. apply (Hfresh (ID y) Hy).
    rewrite Heq, Hx. left. }
  apply fold_same_id. exact Hg.
Qed.

End FlattenGroups.

(** ** What reconstruction keeps and what it fails on *)

Section ReconstructionMore.
Import shared.

Lemma all_symbols_app (ms ms' : list VulnerabilityMatch) :
  all_symbols (ms ++ ms') = all_symbols ms ++ all_symbols ms'.
Proof. unfold all_symbols. apply flat_map_app. Qed.

(** A step adds the symbols of the next match after those of the
    accumulator, and loses none. *)
Lemma flatten_step_symbols (acc : list VulnerabilityMatch) (m : VulnerabilityMatch) :
  Forall unnamed_has_no_symbols acc ->
  unnamed_has_no_symbols m ->
  all_symbols (flatten_step acc m) = all_symbols acc ++ all_symbols [m] /\
  Forall unnamed_has_no_symbols (flatten_step acc m).
Proof.
  intros Hacc Hm.
  destruct acc as [|x acc _] using rev_ind.
  - rewrite flatten_step_nil. split; [reflexivity|repeat constructor; exact Hm].
  - rewrite flatten_step_snoc. apply Forall_app in Hacc as [Hacc Hx].
    apply Forall_inv in Hx. case_decide.
    + split; [apply all_symbols_app|].
      apply Forall_app. split; [|repeat constructor; exact Hm].
      apply Forall_app. split; [exact Hacc|repeat constructor; exact Hx].
    + rewrite !all_symbols_app. unfold merge_match. case_decide as Hname.
      * split.
        -- unfold all_symbols at 2 4 5. simpl. rewrite (Hx Hname), !app_nil_r.
           reflexivity.
        -- apply Forall_app. split; [exact Hacc|]. repeat constructor. exact Hm.
      * split.
        -- unfold all_symbols at 2 4 5. simpl. rewrite !app_nil_r, app_assoc.
           reflexivity.
        -- apply Forall_app. split; [exact Hacc|]. repeat constructor.
           intros Hn. contradiction Hname.
Qed.

(** Flattening keeps the symbol entries of its input, all of them and in
    order, when the matches without a package name have none. *)
Lemma flattenMatches_symbols (ms : list VulnerabilityMatch) :
  Forall unnamed_has_no_symbols ms ->
  all_symbols (flattenMatches ms) = all_symbols ms.
Proof.
  unfold flattenMatches.
  assert (forall acc, Forall unnamed_has_no_symbols acc ->
                      Forall unnamed_has_no_symbols ms ->
                      all_symbols (fold_left flatten_step ms acc)
                      = all_symbols acc ++ all_symbols ms) as Hgen.
  { induction ms as [|m ms IH]; intros acc Hacc Hms.
    - simpl. rewrite app_nil_r. reflexivity.
    - apply Forall_cons in Hms as [Hm Hms]. cbn [fold_left].
      destruct (flatten_step_symbols acc m Hacc Hm) as [Hsyms Hinv].
      rewrite (IH _ Hinv Hms), Hsyms, <- app_assoc.
      change (m :: ms) with ([m] ++ ms). rewrite all_symbols_app. reflexivity. }
  intros Hms. apply (Hgen [] ltac:(constructor) Hms).
Qed.

Lemma row_match_unnamed (s : MatchQueryRow) : unnamed_has_no_symbols (row_match s).
Proof.
  unfold unnamed_has_no_symbols, row_match. simpl.
  case_decide; [reflexivity|]. intros Hname. contradiction.
Qed.

(** A scan that succeeds has read a vulnerability id in every row and
    collected the matches of the rows; a scan that fails has met a NULL. *)
Lemma scan_rows_inv (rows : list MatchQueryRow) (values : list VulnerabilityMatch)
    (c0 : Z) :
  match scan_rows scanVulnerabilityMatch rows values c0 with
  | Ok (ms, c) =>
      Forall (fun s => is_Some (q_vulnerability_id s)) rows /\
      ms = values ++ map row_match rows
  | Err e =>
      e = ErrScanNull /\ exists s, s ∈ rows /\ q_vulnerability_id s = None
  end.
Proof.
  revert values c0. induction rows as [|s rows IH]; intros values c0.
  - simpl. split; [constructor|]. rewrite app_nil_r. reflexivity.
  - simpl. rewrite scanVulnerabilityMatch_eq.
    destruct (q_vulnerability_id s) as [vid|] eqn:Ev; simpl.
    + specialize (IH (values ++ [row_match s]) (q_count s)).
      destruct (scan_rows _ rows _ _) as [[ms c]|e].
      * destruct IH as [Hall ->]. split.
        -- constructor; [rewrite Ev; eauto|exact Hall].
        -- rewrite <- app_assoc. reflexivity.
      * destruct IH as [-> (s' & Hin & Hs')]. split; [reflexivity|].
        exists s'. split; [right; exact Hin|exact Hs'].
    + split; [reflexivity|]. exists s. split; [left|exact Ev].
Qed.

Lemma scanVulnerabilityMatchesAndCount_inv (rows : list MatchQueryRow) :
  match scanVulnerabilityMatchesAndCount (Ok rows) with
  | Ok (ms, c) =>
      Forall (fun s => is_Some (q_vulnerability_id s)) rows /\
      ms = flattenMatches (map row_match rows)
  | Err e =>
      e = ErrScanNull /\ exists s, s ∈ rows /\ q_vulnerability_id s = None
  end.
Proof.
  unfold scanVulnerabilityMatchesAndCount.
  change (NewSliceWithCountScanner scanVulnerabilityMatch (Ok rows))
    with (scan_rows scanVulnerabilityMatch rows [] 0).
  pose proof (scan_rows_inv rows [] 0) as H.
  destruct (scan_rows scanVulnerabilityMatch rows [] 0) as [[ms c]|e]; simpl.
  - destruct H as [Hall ->]. split; [exact Hall|reflexivity].
  - exact H.
Qed.

(** X3. The symbol entries of the returned matches, taken in order, are
    the paths of the rows that hold a package name and a path, in row order:
    reconstruction loses no such row and adds none. *)
Theorem reconstruction_keeps_symbol_rows (rows : list MatchQueryRow)
    (ms : list VulnerabilityMatch) (c : Z) :
  scanVulnerabilityMatchesAndCount (Ok rows) = Ok (ms, c) ->
  map Path (all_symbols ms)
  = map (fun s => NullString "" (q_path s)) (filter keeps_symbol rows).
Proof.
  intros Hscan. pose proof (scanVulnerabilityMatchesAndCount_inv rows) as H.
  rewrite Hscan in H. destruct H as [_ ->].
  rewrite flattenMatches_symbols
    by (apply Forall_map, Forall_forall; intros s _; apply row_match_unnamed).
  clear. induction rows as [|s rows IH]; [reflexivity|].
  change (all_symbols (map row_match (s :: rows)))
    with (AffectedSymbols (Package (row_match s)) ++ all_symbols (map row_match rows)).
  rewrite map_app, IH, filter_cons. unfold keeps_symbol at 2.
  unfold row_match, row_package. simpl.
  repeat case_decide; simpl; try reflexivity; tauto.
Qed.

(** One row with a NULL vulnerability id fails the whole scan: no match
    is returned, also not for the rows before it. *)
Lemma scan_fails_on_null (rows : list MatchQueryRow)
    (s : MatchQueryRow) :
  s ∈ rows ->
  q_vulnerability_id s = None ->
  scanVulnerabilityMatchesAndCount (Ok rows) = Err ErrScanNull.
Proof.
  intros Hin Hnull. pose proof (scanVulnerabilityMatchesAndCount_inv rows) as H.
  destruct (scanVulnerabilityMatchesAndCount (Ok rows)) as [[ms c]|e].
  - destruct H as [Hall _].
    pose proof (proj1 (Forall_forall _ _) Hall s Hin) as [vid Hvid]. congruence.
  - destruct H as [-> _]. reflexivity.
Qed.

End ReconstructionMore.

(** ** The two read entry points over a database *)

Section ReadMore.
Import shared.

Lemma map_flat_map {A B C} (f : B -> C) (g : A -> list B) (l : list A) :
  map f (flat_map g l) = flat_map (fun a => map f (g a)) l.
Proof.
  induction l as [|a l IH]; [reflexivity|]. simpl. rewrite map_app, IH. reflexivity.
Qed.

(** What does not read the count of a row is the same on the joins of a
    match with different counts. *)
Lemma join_packages_count {B} (f : MatchQueryRow -> B) (db : Database)
    (m : MatchRow) (c c' : Z) :
  (forall vap vas, f (join_row m vap vas c) = f (join_row m vap vas c')) ->
  map f (join_packages db (m, c)) = map f (join_packages db (m, c')).
Proof.
  intros Hf. unfold join_packages.
  destruct (filter _ (Sql.order_by vap_id (vulnerability_affected_packages db)))
    as [|vap packages].
  - simpl. rewrite Hf. reflexivity.
  - rewrite !map_flat_map. apply flat_map_ext. intros vap'. unfold join_symbols.
    destruct (filter _ (Sql.order_by vas_id (vulnerability_affected_symbols db)))
      as [|vas symbols].
    + simpl. rewrite Hf. reflexivity.
    + rewrite !map_map. apply map_ext. intros vas'. apply Hf.
Qed.

(** The rows of the join of a match carry the id and the upload of the
    match. *)
Lemma join_packages_ids (db : Database) (m : MatchRow) (c : Z) :
  Forall (fun s => q_id s = m_id m /\ q_upload_id s = m_upload_id m)
         (join_packages db (m, c)).
Proof.
  unfold join_packages.
  destruct (filter _ (Sql.order_by vap_id (vulnerability_affected_packages db)))
    as [|vap packages].
  - repeat constructor.
  - apply Forall_flat_map, Forall_forall. intros vap' _. unfold join_symbols.
    destruct (filter _ (Sql.order_by vas_id (vulnerability_affected_symbols db)))
      as [|vas symbols].
    + repeat constructor.
    + apply Forall_map, Forall_forall. intros vas' _. split; reflexivity.
Qed.

(** With unique ids, the rows of an id are the one row that has it. *)
Lemma filter_unique_id (rows : list MatchRow) (m : MatchRow) :
  NoDup (map m_id rows) -> m ∈ rows ->
  filter (fun m' => m_id m' = m_id m) rows = [m].
Proof.
  induction rows as [|x rows IH]; intros Hnd Hin; [inversion Hin|].
  simpl in Hnd. apply NoDup_cons in Hnd as [Hx Hnd]. rewrite filter_cons.
  apply elem_of_cons in Hin as [<-|Hin].
  - rewrite decide_True by reflexivity. f_equal.
    destruct (filter (fun m' => m_id m' = m_id m) rows) as [|y l] eqn:E;
      [reflexivity|].
    exfalso. assert (y ∈ filter (fun m' => m_id m' = m_id m) rows) as Hy
      by (rewrite E; left).
    apply list_elem_of_filter in Hy as [Hid Hy]. apply Hx. rewrite <- Hid.
    apply list_elem_of_fmap_2. exact Hy.
  - rewrite decide_False; [apply IH; assumption|].
    intros Hid. apply Hx. rewrite Hid. apply list_elem_of_fmap_2. exact Hin.
Qed.

(** the matches of the rows of the join of one match, and what they
    flatten into *)
Lemma group_flattens (db : Database) (m : MatchRow) (c : Z) :
  exists mm,
    flattenMatches (map row_match (join_packages db (m, c))) = [mm] /\
    ID mm = m_id m /\ UploadID mm = m_upload_id m.
Proof.
  pose proof (join_packages_ids db m c) as Hids.
  destruct (join_packages_rows db m c) as [Hne _].
  destruct (join_packages db (m, c)) as [|s rows]; [congruence|].
  apply Forall_cons in Hids as [[Hid Hup] Hids].
  exists (fold_left merge_match (map row_match rows) (row_match s)).
  split; [|split].
  - simpl map. apply flattenMatches_one_group, Forall_map.
    eapply Forall_impl; [exact Hids|]. intros s' [Hid' _]. simpl. congruence.
  - rewrite fold_merge_match_ID. exact Hid.
  - assert (forall g x, UploadID (fold_left merge_match g x) = UploadID x) as Hu.
    { induction g as [|y g IH]; intros x; [reflexivity|]. simpl. rewrite IH.
      unfold merge_match. case_decide; reflexivity. }
    rewrite Hu. exact Hup.
Qed.

Lemma page_of_elem (db : Database) (args : GetVulnerabilityMatchesArgs)
    (m : MatchRow) :
  m ∈ page_of db args -> m ∈ vulnerability_matches db.
Proof.
  unfold page_of. intros Hin. apply subseteq_take, subseteq_drop in Hin.
  rewrite order_by_Permutation in Hin. exact Hin.
Qed.

Lemma page_of_NoDup (db : Database) (args : GetVulnerabilityMatchesArgs) :
  NoDup (map m_id (vulnerability_matches db)) ->
  NoDup (map m_id (page_of db args)).
Proof.
  intros Hnd. unfold page_of.
  eapply sublist_NoDup; [|apply fmap_sublist; etrans;
                           [apply sublist_take|apply sublist_drop]].
  change (NoDup (m_id <$> Sql.order_by m_id (vulnerability_matches db))).
  rewrite order_by_Permutation. exact Hnd.
Qed.

(** A list query that succeeds has not been given a negative limit or
    offset, has read a vulnerability id in every row of the join of its
    page, and returns the matches of these rows, flattened. *)
Lemma GetVulnerabilityMatches_Ok (db : Database) (args : GetVulnerabilityMatchesArgs)
    (ms : list VulnerabilityMatch) (c : Z) :
  GetVulnerabilityMatches db args = Ok (ms, c) ->
  0 <= Limit args /\ 0 <= Offset args /\
  Forall (fun s => is_Some (q_vulnerability_id s))
    (flat_map (join_packages db)
       (map (fun m => (m, Z.of_nat (length (vulnerability_matches db))))
            (page_of db args))) /\
  ms = flattenMatches
         (map row_match
            (flat_map (join_packages db)
               (map (fun m => (m, Z.of_nat (length (vulnerability_matches db))))
                    (page_of db args)))).
Proof.
  unfold GetVulnerabilityMatches, getVulnerabilityMatchesQuery, limited_matches,
    Sql.limit_offset. intros Hget.
  destruct (Limit args <? 0) eqn:El; [discriminate|].
  destruct (Offset args <? 0) eqn:Eo; [discriminate|].
  apply Z.ltb_ge in El, Eo. simpl in Hget. fold (page_of db args) in Hget.
  match type of Hget with
  | scanVulnerabilityMatchesAndCount (Ok ?rows) = _ =>
      pose proof (scanVulnerabilityMatchesAndCount_inv rows) as H
  end.
  rewrite Hget in H. destruct H as [Hall ->]. auto.
Qed.

(** The matches a list query returns are those of its page, one match for
    every row of the page and in the order of the page, each with the id and
    the upload of its row, and each the match that the lookup of its id
    returns. *)
Lemma GetVulnerabilityMatches_page (db : Database) (args : GetVulnerabilityMatchesArgs)
    (ms : list VulnerabilityMatch) (c : Z) :
  NoDup (map m_id (vulnerability_matches db)) ->
  GetVulnerabilityMatches db args = Ok (ms, c) ->
  Forall2 (fun m mm => ID mm = m_id m /\ UploadID mm = m_upload_id m /\
                       VulnerabilityMatchByID db (m_id m) = Ok (Some mm))
          (page_of db args) ms.
Proof.
  intros Hnd Hget.
  destruct (GetVulnerabilityMatches_Ok db args ms c Hget) as (_ & _ & Hall & ->).
  set (N := Z.of_nat (length (vulnerability_matches db))) in *.
  assert (forall page,
            map row_match (flat_map (join_packages db) (map (fun m => (m, N)) page))
            = flat_map (fun m => map row_match (join_packages db (m, N))) page)
    as Hrows.
  { induction page as [|m page IH]; [reflexivity|].
    simpl. rewrite map_app, IH. reflexivity. }
  assert (Forall (fun m => Forall (fun s => is_Some (q_vulnerability_id s))
                                  (join_packages db (m, N))) (page_of db args))
    as Hall'.
  { apply Forall_flat_map in Hall. rewrite Forall_map in Hall. exact Hall. }
  clear Hall. rename Hall' into Hall. rewrite Hrows.
  rewrite (flattenMatches_groups m_id).
  - pose proof (page_of_elem db args) as Hsub.
    clear Hget Hrows.
    induction (page_of db args) as [|m page IH]; [constructor|].
    apply Forall_cons in Hall as [Hm Hall]. cbn [flat_map].
    destruct (group_flattens db m N) as (mm & Hflat & Hid & Hup).
    rewrite Hflat. simpl app. constructor.
    + split; [exact Hid|]. split; [exact Hup|].
      unfold VulnerabilityMatchByID, vulnerabilityMatchByIDQuery.
      rewrite (filter_unique_id _ m Hnd) by (apply Hsub; left).
      cbn [map flat_map]. rewrite app_nil_r.
      pose proof (scanVulnerabilityMatchesAndCount_inv (join_packages db (m, 0)))
        as Hinv.
      destruct (scanVulnerabilityMatchesAndCount (Ok (join_packages db (m, 0))))
        as [[ms0 c0]|e].
      * destruct Hinv as [_ ->]. cbn [rbind fst].
        rewrite (join_packages_count row_match db m 0 N) by reflexivity.
        rewrite Hflat. reflexivity.
      * destruct Hinv as [_ (s & Hs & Hnull)]. exfalso.
        assert (None ∈ map q_vulnerability_id (join_packages db (m, 0))) as Hnone
          by (rewrite <- Hnull; apply list_elem_of_fmap_2; exact Hs).
        rewrite (join_packages_count q_vulnerability_id db m 0 N) in Hnone
          by reflexivity.
        apply list_elem_of_fmap in Hnone as (s' & Hnull' & Hs').
        pose proof (proj1 (Forall_forall _ _) Hm s' Hs') as [vid Hvid].
        congruence.
    + apply IH; [exact Hall|]. intros m' Hin. apply Hsub. right. exact Hin.
  - apply page_of_NoDup, Hnd.
  - intros m _. destruct (join_packages_rows db m N) as [Hne _]. split.
    + destruct (join_packages db (m, N)); [congruence|discriminate].
    + apply Forall_map. eapply Forall_impl; [apply join_packages_ids|].
      intros s [Hid _]. exact Hid.
Qed.

End ReadMore.

Section ReadProperties.
Import shared.

Lemma order_by_sorted {A} (key : A -> Z) (rows : list A) :
  StronglySorted (fun a b => key a <= key b) (Sql.order_by key rows).
Proof.
  assert (Transitive (fun a b : A => key a <= key b)) by (intros x y z; lia).
  assert (Total (fun a b : A => key a <= key b)) by (intros x y; lia).
  unfold Sql.order_by. apply StronglySorted_merge_sort; assumption.
Qed.

Lemma StronglySorted_sublist {A} (R : A -> A -> Prop) (l1 l2 : list A) :
  l1 `sublist_of` l2 -> StronglySorted R l2 -> StronglySorted R l1.
Proof.
  induction 1 as [|x l1 l2 Hsub IH|x l1 l2 Hsub IH]; intros Hs.
  - constructor.
  - apply StronglySorted_inv in Hs as [Hs Hx]. constructor; [apply IH, Hs|].
    apply Forall_forall. intros y Hy.
    exact (proj1 (Forall_forall _ _) Hx y (elem_of_sublist _ _ _ Hy Hsub)).
  - apply StronglySorted_inv in Hs as [Hs _]. apply IH, Hs.
Qed.

Lemma page_of_sorted (db : Database) (args : GetVulnerabilityMatchesArgs) :
  NoDup (map m_id (vulnerability_matches db)) ->
  StronglySorted Z.lt (map m_id (page_of db args)).
Proof.
  intros Hnd. pose proof (page_of_NoDup db args Hnd) as Hpage.
  assert (StronglySorted (fun a b => m_id a <= m_id b) (page_of db args)) as Hs.
  { unfold page_of. eapply StronglySorted_sublist; [|apply order_by_sorted].
    etrans; [apply sublist_take|apply sublist_drop]. }
  induction Hs as [|m page Hs IH Hm]; [constructor|].
  simpl in Hpage. apply NoDup_cons in Hpage as [Hfresh Hpage].
  simpl. constructor; [apply IH, Hpage|].
  apply Forall_map, Forall_forall. intros m' Hin.
  pose proof (proj1 (Forall_forall _ _) Hm m' Hin) as Hle.
  assert (m_id m <> m_id m')
    by (intros Heq; apply Hfresh; rewrite Heq; apply list_elem_of_fmap_2, Hin).
  simpl in *. lia.
Qed.

(** X4. The list query and the lookup by id agree: with unique match ids,
    a list query that succeeds returns one match for every row of its page,
    in the order of the page, and each of them is the match that
    [VulnerabilityMatchByID] returns for the id of its row. *)
Theorem list_agrees_with_lookup (db : Database) (args : GetVulnerabilityMatchesArgs)
    (ms : list VulnerabilityMatch) (c : Z) :
  NoDup (map m_id (vulnerability_matches db)) ->
  GetVulnerabilityMatches db args = Ok (ms, c) ->
  Forall2 (fun m mm => VulnerabilityMatchByID db (m_id m) = Ok (Some mm))
          (page_of db args) ms.
Proof.
  intros Hnd Hget.
  eapply Forall2_impl; [apply (GetVulnerabilityMatches_page db args ms c Hnd Hget)|].
  intros m mm (_ & _ & H). exact H.
Qed.

(** X5. With unique match ids, the matches of a list query that succeeds
    have the ids and uploads of the rows of its page, come in strictly
    ascending order of id, and are at most [limit] many. *)
Theorem list_is_ordered_and_bounded (db : Database) (args : GetVulnerabilityMatchesArgs)
    (ms : list VulnerabilityMatch) (c : Z) :
  NoDup (map m_id (vulnerability_matches db)) ->
  GetVulnerabilityMatches db args = Ok (ms, c) ->
  map (fun mm => (ID mm, UploadID mm)) ms
    = map (fun m => (m_id m, m_upload_id m)) (page_of db args) /\
  StronglySorted Z.lt (map ID ms) /\
  (length ms <= Z.to_nat (Limit args))%nat.
Proof.
  intros Hnd Hget.
  pose proof (GetVulnerabilityMatches_page db args ms c Hnd Hget) as Hpage.
  assert (map (fun mm => (ID mm, UploadID mm)) ms
          = map (fun m => (m_id m, m_upload_id m)) (page_of db args)) as Hids.
  { clear Hget. revert Hpage. generalize (page_of db args). intros page Hpage.
    induction Hpage as [|m mm page ms' (Hid & Hup & _) _ IH]; [reflexivity|].
    simpl. rewrite Hid, Hup, IH. reflexivity. }
  split; [exact Hids|]. split.
  - replace (map ID ms) with (map m_id (page_of db args)).
    + apply page_of_sorted, Hnd.
    + apply (f_equal (map fst)) in Hids. rewrite !map_map in Hids.
      symmetry. exact Hids.
  - rewrite <- (Forall2_length _ _ _ Hpage). unfold page_of.
    rewrite length_take. lia.
Qed.

(** X6. A lookup of an id that no match has returns no match and no
    error. *)
Theorem lookup_of_unknown_id (db : Database) (id : Z) :
  id ∉ map m_id (vulnerability_matches db) ->
  VulnerabilityMatchByID db id = Ok None.
Proof.
  intros Hid. unfold VulnerabilityMatchByID, vulnerabilityMatchByIDQuery.
  assert (filter (fun m => m_id m = id) (vulnerability_matches db) = []) as ->.
  { destruct (filter (fun m => m_id m = id) (vulnerability_matches db))
      as [|m l] eqn:E; [reflexivity|].
    exfalso. assert (m ∈ filter (fun m => m_id m = id) (vulnerability_matches db))
      as Hm by (rewrite E; left).
    apply list_elem_of_filter in Hm as [<- Hm]. apply Hid.
    apply list_elem_of_fmap_2. exact Hm. }
  reflexivity.
Qed.

(** X7. A lookup of the id of a match returns a match of that id, when
    the matches refer to rows of the catalog. *)
Theorem lookup_of_known_id (db : Database) (m : MatchRow) :
  foreign_key_holds db ->
  m ∈ vulnerability_matches db ->
  exists mm, VulnerabilityMatchByID db (m_id m) = Ok (Some mm) /\ ID mm = m_id m.
Proof.
  intros Hfk Hin. unfold VulnerabilityMatchByID, vulnerabilityMatchByIDQuery.
  set (found := filter (fun m' => m_id m' = m_id m) (vulnerability_matches db)).
  set (rows := flat_map (join_packages db) (map (fun m' => (m', 0)) found)).
  assert (m ∈ found) as Hm by (apply list_elem_of_filter; auto).
  assert (Forall (fun s => q_id s = m_id m /\ is_Some (q_vulnerability_id s)) rows)
    as Hall.
  { apply Forall_flat_map, Forall_map, Forall_forall. intros m' Hm'.
    apply list_elem_of_filter in Hm' as [Hid Hm'].
    destruct (join_packages_rows db m' 0) as (_ & _ & Hv).
    specialize (Hv (Hfk m' Hm')). pose proof (join_packages_ids db m' 0) as Hids.
    apply Forall_forall. intros s Hs. split.
    - destruct (proj1 (Forall_forall _ _) Hids s Hs) as [Hq _]. simpl in *.
      congruence.
    - exact (proj1 (Forall_forall _ _) Hv s Hs). }
  assert (rows <> []) as Hne.
  { apply flat_map_not_nil.
    - intros Hnil. apply map_eq_nil in Hnil. rewrite Hnil in Hm. inversion Hm.
    - intros [m' c'] _. apply join_packages_rows. }
  pose proof (scanVulnerabilityMatchesAndCount_inv rows) as Hinv.
  destruct (scanVulnerabilityMatchesAndCount (Ok rows)) as [[ms c]|e].
  - destruct Hinv as [_ ->]. destruct rows as [|s rows']; [congruence|].
    apply Forall_cons in Hall as [[Hid _] Hall]. simpl map.
    rewrite flattenMatches_one_group.
    + eexists. split; [reflexivity|]. rewrite fold_merge_match_ID. exact Hid.
    + apply Forall_map. eapply Forall_impl; [exact Hall|].
      intros s' [Hid' _]. simpl. congruence.
  - destruct Hinv as [_ (s & Hs & Hnull)].
    destruct (proj1 (Forall_forall _ _) Hall s Hs) as [_ [vid Hvid]]. congruence.
Qed.

(** X8. A match whose package is not in the catalog fails the reads that
    meet it: the lookup of its id returns the scan error, and so does every
    list query whose page holds it. *)
Theorem dangling_match_fails_reads (db : Database) (m : MatchRow) :
  m ∈ vulnerability_matches db ->
  (forall vap, vap ∈ vulnerability_affected_packages db ->
               vap_id vap <> m_vulnerability_affected_package_id m) ->
  VulnerabilityMatchByID db (m_id m) = Err ErrScanNull /\
  (forall args, 0 <= Limit args -> 0 <= Offset args -> m ∈ page_of db args ->
                GetVulnerabilityMatches db args = Err ErrScanNull).
Proof.
  intros Hin Hmissing.
  assert (forall c, join_packages db (m, c) = [join_row m None None c]) as Hjoin.
  { intros c. unfold join_packages.
    destruct (filter _ (Sql.order_by vap_id (vulnerability_affected_packages db)))
      as [|vap l] eqn:E; [reflexivity|].
    exfalso. assert (vap ∈ vap :: l) as Hvap by left. rewrite <- E in Hvap.
    apply list_elem_of_filter in Hvap as [Hid Hvap].
    rewrite order_by_Permutation in Hvap. exact (Hmissing vap Hvap Hid). }
  split.
  - unfold VulnerabilityMatchByID, vulnerabilityMatchByIDQuery.
    rewrite (scan_fails_on_null _ (join_row m None None 0)); [reflexivity| |reflexivity].
    apply list_elem_of_In, in_flat_map. exists (m, 0). split.
    + apply (in_map (fun m' => (m', 0))), list_elem_of_In, list_elem_of_filter.
      auto.
    + rewrite Hjoin. left. reflexivity.
  - intros args Hl Ho Hpage.
    unfold GetVulnerabilityMatches, getVulnerabilityMatchesQuery, limited_matches,
      Sql.limit_offset.
    rewrite (proj2 (Z.ltb_ge _ _) Hl), (proj2 (Z.ltb_ge _ _) Ho). simpl.
    fold (page_of db args).
    set (N := Z.of_nat (length (vulnerability_matches db))).
    apply (scan_fails_on_null _ (join_row m None None N)); [|reflexivity].
    apply list_elem_of_In, in_flat_map. exists (m, N). split.
    + apply (in_map (fun m => (m, N))), list_elem_of_In, Hpage.
    + rewrite Hjoin. left. reflexivity.
Qed.

(** X9. A page that selects no row (a limit of 0, or an offset at or
    beyond the number of matches) returns no match and a total count of 0,
    not the number of matches. *)
Theorem empty_page_counts_zero (db : Database) (args : GetVulnerabilityMatchesArgs) :
  0 <= Limit args -> 0 <= Offset args ->
  Limit args = 0 \/ Z.of_nat (length (vulnerability_matches db)) <= Offset args ->
  GetVulnerabilityMatches db args = Ok ([], 0).
Proof.
  intros Hl Ho Hempty.
  unfold GetVulnerabilityMatches, getVulnerabilityMatchesQuery, limited_matches,
    Sql.limit_offset.
  rewrite (proj2 (Z.ltb_ge _ _) Hl), (proj2 (Z.ltb_ge _ _) Ho). simpl.
  fold (page_of db args).
  assert (page_of db args = []) as ->; [|reflexivity].
  apply length_zero_iff_nil. unfold page_of.
  rewrite length_take, length_drop, (Permutation_length (order_by_Permutation _ _)).
  lia.
Qed.

End ReadProperties.

(** ** What a scan persists *)

(** A key of the table after the insert was in the table or among the
    pairs. *)
Lemma insert_sound (clause : Sql.OnConflict) (pairs : list (Z * Z))
    (rows rows' : list MatchRow) (seq seq' : Z) :
  insert_vulnerability_matches clause pairs rows seq = Ok (rows', seq') ->
  forall p, p ∈ keys rows' -> p ∈ keys rows \/ p ∈ pairs.
Proof.
  revert rows seq. induction pairs as [|q pairs IH]; intros rows seq; simpl.
  - intros [= <- _] p Hp. left. exact Hp.
  - case_bool_decide as Hin.
    + destruct clause; [discriminate|]. intros H p Hp.
      destruct (IH _ _ H p Hp) as [Hl|Hr]; [left; exact Hl|].
      right. right. exact Hr.
    + intros H p Hp. destruct (IH _ _ H p Hp) as [Hl|Hr].
      * rewrite keys_app in Hl. apply elem_of_app in Hl as [Hl|Hl];
          [left; exact Hl|].
        right. simpl in Hl. apply list_elem_of_singleton in Hl. subst p.
        destruct q. left.
      * right. right. exact Hr.
Qed.

Section ScanProperties.
Context {L : GoVersion.Library}.

(** The staged pairs are the pairs of the candidates that the evaluator
    accepts. *)
Lemma staged_pairs_iff (db : Database) (uploadID affectedPackageID : Z) :
  (uploadID, affectedPackageID) ∈ staged_pairs db <->
  exists r vap,
    r ∈ lsif_references db /\ vap ∈ vulnerability_affected_packages db /\
    uploadID = r_dump_id r /\ affectedPackageID = vap_id vap /\
    name_like r vap = true /\
    scipSchemeToVulnerabilityLanguage !! r_scheme r = Some (vap_language vap) /\
    fst (versionMatchesConstraints (r_version r) (vap_version_constraint vap)) = true.
Proof.
  unfold staged_pairs, survivors. rewrite list_elem_of_fmap. split.
  - intros (m & Hm & Hin). apply list_elem_of_In, in_flat_map in Hin
      as (row & Hrow & Hin).
    apply scanMatchesQuery_rows in Hrow as (r & vap & Hr & Hvap & -> & Hl & Hmap).
    simpl in Hin.
    destruct (fst (versionMatchesConstraints _ _)) eqn:E; [|contradiction].
    destruct Hin as [<-|[]]. simpl in Hm. injection Hm as -> ->.
    exists r, vap. repeat split; try (apply list_elem_of_In); try assumption.
    apply mappings_hold_lookup. exact Hmap.
  - intros (r & vap & Hr & Hvap & -> & -> & Hl & Hmap & Hmatch).
    exists {| UploadID := r_dump_id r; VulnerabilityAffectedPackageID := vap_id vap |}.
    split; [reflexivity|]. apply list_elem_of_In, in_flat_map.
    exists (candidate r vap). split.
    + apply scanMatchesQuery_rows. exists r, vap.
      repeat split; try (apply list_elem_of_In); try assumption.
      apply mappings_hold_lookup. exact Hmap.
    + simpl. rewrite Hmatch. left. reflexivity.
Qed.

(** X10. A scan only appends to the matches table: the rows it found are
    all there afterwards, unchanged and in place, whether it fails or not,
    and so they are after any sequence of scans. *)
Theorem scans_only_append (invocations : list Invocation) (faults : Faults)
    (db : Database) :
  (exists added, vulnerability_matches (snd (ScanMatches faults db))
                 = vulnerability_matches db ++ added) /\
  (exists added, vulnerability_matches (scans invocations db)
                 = vulnerability_matches db ++ added).
Proof.
  assert (forall faults db,
            exists added, vulnerability_matches (snd (ScanMatches faults db))
                          = vulnerability_matches db ++ added) as Hone.
  { clear. intros faults db. rewrite ScanMatches_unfold.
    destruct (first_fault faults); [exists []; symmetry; apply app_nil_r|].
    destruct (insert_vulnerability_matches _ _ _ _) as [[rows' seq']|e] eqn:E.
    - simpl. eapply insert_extends. exact E.
    - exists []. symmetry. apply app_nil_r. }
  split; [apply Hone|].
  revert db. induction invocations as [|i invocations IH]; intros db.
  - exists []. symmetry. apply app_nil_r.
  - simpl. destruct (IH (snd (ScanMatches (inv_faults i) (with_inputs i db))))
      as [added ->].
    destruct (Hone (inv_faults i) (with_inputs i db)) as [added' ->].
    simpl. exists (added' ++ added). symmetry. apply app_assoc.
Qed.

(** X11. After a scan that returned no error, a pair is in the matches
    table exactly when it was there before or it is the pair of a reference
    and a package that the query joins (name pattern, mapped scheme and
    language) and whose version the evaluator reports as matching. *)
Theorem scan_persists_exactly_the_matches (faults : Faults) (db : Database)
    (uploadID affectedPackageID : Z) :
  fst (ScanMatches faults db) = None ->
  (uploadID, affectedPackageID)
    ∈ keys (vulnerability_matches (snd (ScanMatches faults db))) <->
  (uploadID, affectedPackageID) ∈ keys (vulnerability_matches db) \/
  exists r vap,
    r ∈ lsif_references db /\ vap ∈ vulnerability_affected_packages db /\
    uploadID = r_dump_id r /\ affectedPackageID = vap_id vap /\
    name_like r vap = true /\
    scipSchemeToVulnerabilityLanguage !! r_scheme r = Some (vap_language vap) /\
    fst (versionMatchesConstraints (r_version r) (vap_version_constraint vap)) = true.
Proof.
  rewrite ScanMatches_unfold.
  destruct (first_fault faults); [discriminate|].
  destruct (insert_vulnerability_matches _ _ _ _) as [[rows' seq']|e] eqn:E;
    [|discriminate].
  intros _. simpl. rewrite <- staged_pairs_iff. split.
  - apply (insert_sound _ _ _ _ _ _ E).
  - intros [Hold|Hnew].
    + destruct (insert_extends _ _ _ _ _ _ E) as [added ->].
      rewrite keys_app. apply elem_of_app. left. exact Hold.
    + exact (insert_covers _ _ _ _ _ _ E _ Hnew).
Qed.

(** X12. The scheme map decides which pairs can match: every candidate
    joins a [gomod] reference with a [go] package or an [npm] reference with
    a [Javascript] package, so a reference of any other scheme gives none. *)
Theorem candidates_follow_the_scheme_map (db : Database) (row : CandidateRow) :
  In row (scanMatchesQuery (mappings_of scipSchemeToVulnerabilityLanguage) db) ->
  exists r vap,
    In r (lsif_references db) /\ In vap (vulnerability_affected_packages db) /\
    row = candidate r vap /\
    ((r_scheme r = "gomod" /\ vap_language vap = "go") \/
     (r_scheme r = "npm" /\ vap_language vap = "Javascript")).
Proof.
  intros Hrow. apply scanMatchesQuery_rows in Hrow
    as (r & vap & Hr & Hvap & -> & _ & Hmap).
  exists r, vap. repeat split; try assumption.
  apply mappings_hold_lookup in Hmap. unfold scipSchemeToVulnerabilityLanguage in Hmap.
  apply lookup_insert_Some in Hmap as [[<- <-]|[_ Hmap]]; [left; auto|].
  apply lookup_singleton_Some in Hmap as [<- <-]. right. auto.
Qed.

End ScanProperties.

(** ** The name pattern never misses a substring *)

Module LikeMore.
Import Sql.

(** A pattern without a backslash matches the string that spells it, a
    wildcard standing for itself. *)
Lemma like_itself (lit p s : list ascii) :
  Forall (fun c => c <> "\"%char) lit ->
  like p s = true -> like (lit ++ p) (lit ++ s) = true.
Proof.
  intros Hlit Hp. induction Hlit as [|c lit Hc _ IH]; [exact Hp|].
  simpl app. destruct (Ascii.eqb c "%") eqn:Epc.
  - apply Ascii.eqb_eq in Epc. subst c.
    apply LikeFacts.like_percent_iff. exists ["%"%char], (lit ++ s).
    split; [reflexivity|exact IH].
  - destruct (Ascii.eqb c "_") eqn:Eu.
    + apply Ascii.eqb_eq in Eu. subst c. exact IH.
    + rewrite LikeFacts.like_literal.
      * rewrite Ascii.eqb_refl. exact IH.
      * unfold is_wildcard. rewrite Epc, Eu. simpl.
        apply Ascii.eqb_neq. exact Hc.
Qed.

End LikeMore.

(** X13. The name pattern misses no substring: when the package name has
    no backslash, a reference whose name contains the package name passes
    the join condition, and is a candidate when the scheme map sends its
    scheme to the language of the package. *)
Theorem substring_is_enough (db : Database) (r : Reference) (vap : AffectedPackageRow) :
  no_backslash (vap_package_name vap) ->
  Contains (r_name r) (vap_package_name vap) = true ->
  name_like r vap = true /\
  (In r (lsif_references db) -> In vap (vulnerability_affected_packages db) ->
   scipSchemeToVulnerabilityLanguage !! r_scheme r = Some (vap_language vap) ->
   In (candidate r vap)
      (scanMatchesQuery (mappings_of scipSchemeToVulnerabilityLanguage) db)).
Proof.
  intros Hplain Hcontains.
  assert (name_like r vap = true) as Hlike.
  { unfold name_like, Sql.LIKE.
    change ("%" ++ vap_package_name vap ++ "%")%string
      with (String "%" (vap_package_name vap ++ "%")%string).
    cbn [list_ascii_of_string]. rewrite LikeFacts.list_ascii_of_string_app.
    apply LikeFacts.contains_iff in Hcontains as (a & b & Hname).
    apply LikeFacts.like_percent_iff.
    exists a, (list_ascii_of_string (vap_package_name vap) ++ b).
    split; [exact Hname|].
    apply LikeMore.like_itself; [exact Hplain|apply LikeFacts.like_percent_only]. }
  split; [exact Hlike|]. intros Hr Hvap Hmap.
  apply scanMatchesQuery_rows. exists r, vap. repeat split; try assumption.
  apply mappings_hold_lookup. exact Hmap.
Qed.

(** ** The evaluator on lists of constraints *)

Section EvaluatorMore.
Context {L : GoVersion.Library}.

Lemma parseAll_Permutation (l l' : list string) :
  l ≡ₚ l' ->
  match GoVersion.parseAll l, GoVersion.parseAll l' with
  | Some x, Some y => x ≡ₚ y
  | None, None => True
  | _, _ => False
  end.
Proof.
  induction 1 as [|s l l' _ IH|s s' l|l l' l'' _ IH1 _ IH2]; simpl.
  - reflexivity.
  - destruct (GoVersion.parseSingle s); [|exact I].
    destruct (GoVersion.parseAll l), (GoVersion.parseAll l'); try exact IH.
    constructor. exact IH.
  - destruct (GoVersion.parseSingle s), (GoVersion.parseSingle s'),
      (GoVersion.parseAll l); try exact I. apply perm_swap.
  - destruct (GoVersion.parseAll l), (GoVersion.parseAll l'),
      (GoVersion.parseAll l''); try tauto. etrans; eassumption.
Qed.

Lemma Check_Permutation (x y : list GoVersion.Constraint) (v : GoVersion.Version) :
  x ≡ₚ y -> GoVersion.Check x v = GoVersion.Check y v.
Proof.
  induction 1 as [|c x y _ IH|c c' x|x y z _ IH1 _ IH2]; simpl.
  - reflexivity.
  - rewrite IH. reflexivity.
  - destruct (GoVersion.checkSingle c v), (GoVersion.checkSingle c' v); reflexivity.
  - congruence.
Qed.

(** The evaluator in terms of the pieces of a list that is not empty. *)
Lemma versionMatchesConstraints_pieces (versionString : string)
    (constraints : list string) :
  constraints <> [] ->
  versionMatchesConstraints versionString constraints =
  match GoVersion.NewVersion versionString,
        GoVersion.parseAll (flat_map (fun e => GoStrings.Split1 e ",") constraints) with
  | Some v, Some c => (GoVersion.Check c v, true)
  | _, _ => (false, false)
  end.
Proof.
  intros Hne. unfold versionMatchesConstraints, GoVersion.NewConstraint.
  rewrite (GoStringsFacts.Split1_Join constraints "," Hne).
  destruct (GoVersion.NewVersion versionString); reflexivity.
Qed.

(** X14. A list of no constraints is malformed: the evaluator answers
    [(false, false)] for every version, so a package whose constraint list
    is empty never gives a match. *)
Theorem no_constraints_never_match (faults : Faults) (db : Database) :
  (forall versionString, versionMatchesConstraints versionString [] = (false, false)) /\
  ((forall vap, vap ∈ vulnerability_affected_packages db ->
                vap_version_constraint vap = []) ->
   vulnerability_matches (snd (ScanMatches faults db)) = vulnerability_matches db).
Proof.
  assert (forall versionString,
            versionMatchesConstraints versionString [] = (false, false)) as Hnone.
  { intros versionString. unfold versionMatchesConstraints, GoVersion.NewConstraint.
    simpl. rewrite GoVersion.parseSingle_empty.
    destruct (GoVersion.NewVersion versionString); reflexivity. }
  split; [exact Hnone|]. intros Hall.
  assert (staged_pairs db = []) as Hstaged.
  { destruct (staged_pairs db) as [|[u p] l] eqn:E; [reflexivity|]. exfalso.
    assert ((u, p) ∈ staged_pairs db) as Hin by (rewrite E; left).
    apply staged_pairs_iff in Hin as (r & vap & _ & Hvap & _ & _ & _ & _ & Hm).
    rewrite (Hall vap Hvap), Hnone in Hm. discriminate. }
  rewrite ScanMatches_unfold, Hstaged.
  destruct (first_fault faults); reflexivity.
Qed.

(** X15. The evaluator on two lists put together is the conjunction of
    the evaluator on each, for [matches] and for [valid], when neither list
    is empty. *)
Theorem versionMatchesConstraints_app (versionString : string)
    (constraints constraints' : list string) :
  constraints <> [] -> constraints' <> [] ->
  versionMatchesConstraints versionString (constraints ++ constraints')
  = (fst (versionMatchesConstraints versionString constraints)
       && fst (versionMatchesConstraints versionString constraints'),
     snd (versionMatchesConstraints versionString constraints)
       && snd (versionMatchesConstraints versionString constraints')).
Proof.
  intros Hne Hne'.
  rewrite !versionMatchesConstraints_pieces; try assumption;
    [|destruct constraints; [congruence|discriminate]].
  rewrite flat_map_app, GoVersionFacts.parseAll_app.
  destruct (GoVersion.NewVersion versionString) as [v|]; [|reflexivity].
  destruct (GoVersion.parseAll (flat_map _ constraints)) as [c|];
    destruct (GoVersion.parseAll (flat_map _ constraints')) as [c'|]; simpl;
    rewrite ?andb_false_r; try reflexivity.
  rewrite GoVersionFacts.Check_app. reflexivity.
Qed.

(** X16. The order of the constraints does not matter: the evaluator
    gives the same answer on every permutation of the list. *)
Theorem versionMatchesConstraints_Permutation (versionString : string)
    (constraints constraints' : list string) :
  constraints ≡ₚ constraints' ->
  versionMatchesConstraints versionString constraints
  = versionMatchesConstraints versionString constraints'.
Proof.
  intros Hperm. destruct constraints as [|e constraints].
  - apply Permutation_nil_l in Hperm. subst. reflexivity.
  - assert (constraints' <> [])
      by (intros ->; apply Permutation_nil_r in Hperm; discriminate).
    rewrite !versionMatchesConstraints_pieces by (assumption || discriminate).
    destruct (GoVersion.NewVersion versionString) as [v|]; [|reflexivity].
    assert (flat_map (fun e => GoStrings.Split1 e ",") (e :: constraints)
            ≡ₚ flat_map (fun e => GoStrings.Split1 e ",") constraints') as Hpieces.
    { apply Permutation_flat_map, Hperm. }
    pose proof (parseAll_Permutation _ _ Hpieces) as Hparse.
    destruct (GoVersion.parseAll (flat_map _ (e :: constraints))) as [c|];
      destruct (GoVersion.parseAll (flat_map _ constraints')) as [c'|];
      try contradiction; [|reflexivity].
    rewrite (Check_Permutation c c' v Hparse). reflexivity.
Qed.

End EvaluatorMore.

(** ** The further properties at the scenario *)

Lemma flattenMatches_idempotent_witness :
  flattenMatches (flattenMatches (map row_match Scenario.rows_with_symbols))
  = flattenMatches (map row_match Scenario.rows_with_symbols).
Proof.
  exact (proj2 (flattenMatches_idempotent (map row_match Scenario.rows_with_symbols))).
Defined.

Lemma reconstruction_keeps_symbol_rows_witness :
  map shared.Path (all_symbols [Scenario.reconstructed])
  = ["bar/parse.go"; "bar/walk.go"; "bar/emit.go"].
Proof.
  exact (reconstruction_keeps_symbol_rows Scenario.rows_with_symbols
           [Scenario.reconstructed] 1 eq_refl).
Defined.

Lemma list_agrees_with_lookup_witness :
  Forall2 (fun m mm => VulnerabilityMatchByID Scenario.after (m_id m) = Ok (Some mm))
          (page_of Scenario.after MoreScenario.first_page) [Scenario.reconstructed].
Proof.
  apply (list_agrees_with_lookup Scenario.after MoreScenario.first_page
           [Scenario.reconstructed] 1).
  - apply (NoDup_singleton 1).
  - reflexivity.
Defined.

Lemma list_is_ordered_and_bounded_witness :
  map (fun mm => (shared.ID mm, shared.UploadID mm)) [Scenario.reconstructed]
    = map (fun m => (m_id m, m_upload_id m))
          (page_of Scenario.after MoreScenario.first_page) /\
  StronglySorted Z.lt (map shared.ID [Scenario.reconstructed]) /\
  (length [Scenario.reconstructed] <= 5)%nat.
Proof.
  apply (list_is_ordered_and_bounded Scenario.after MoreScenario.first_page
           [Scenario.reconstructed] 1).
  - apply (NoDup_singleton 1).
  - reflexivity.
Defined.

Lemma lookup_of_unknown_id_witness :
  VulnerabilityMatchByID Scenario.after 2 = Ok None.
Proof.
  apply lookup_of_unknown_id.
  change (2 ∉ [1]). intros H. apply list_elem_of_singleton in H. discriminate H.
Defined.

Lemma lookup_of_known_id_witness :
  exists mm, VulnerabilityMatchByID Scenario.after 1 = Ok (Some mm) /\ shared.ID mm = 1.
Proof.
  apply (lookup_of_known_id Scenario.after MoreScenario.persisted).
  - intros m Hin. exists Scenario.package. split; [left|].
    change (m ∈ [MoreScenario.persisted]) in Hin.
    apply list_elem_of_singleton in Hin. subst m. reflexivity.
  - left.
Defined.

Lemma dangling_match_fails_reads_witness :
  VulnerabilityMatchByID MoreScenario.dangling 1 = Err ErrScanNull /\
  GetVulnerabilityMatches MoreScenario.dangling MoreScenario.first_page
  = Err ErrScanNull.
Proof.
  destruct (dangling_match_fails_reads MoreScenario.dangling MoreScenario.persisted)
    as [Hlookup Hlist].
  - left.
  - intros vap Hvap. inversion Hvap.
  - split; [exact Hlookup|].
    apply Hlist; [simpl; lia|simpl; lia|left].
Defined.

Lemma empty_page_counts_zero_witness :
  GetVulnerabilityMatches Scenario.after MoreScenario.second_page = Ok ([], 0).
Proof.
  apply empty_page_counts_zero; [simpl; lia|simpl; lia|].
  right. change (1 <= 5). lia.
Defined.

Lemma scan_persists_exactly_the_matches_witness :
  (10, 5) ∈ keys (vulnerability_matches Scenario.after).
Proof.
  refine (proj2 (@scan_persists_exactly_the_matches DecimalVersions.library
                   no_faults Scenario.before 10 5 eq_refl) _).
  right. exists Scenario.reference, Scenario.package.
  split; [right; left|]. split; [left|].
  split; [reflexivity|]. split; [reflexivity|].
  split; [exact eq_refl|].
  split; [exact eq_refl|exact eq_refl].
Defined.

Lemma candidates_follow_the_scheme_map_witness :
  exists r vap,
    In r (lsif_references Scenario.before) /\
    In vap (vulnerability_affected_packages Scenario.before) /\
    candidate Scenario.reference Scenario.package = candidate r vap /\
    ((r_scheme r = "gomod" /\ vap_language vap = "go") \/
     (r_scheme r = "npm" /\ vap_language vap = "Javascript")).
Proof.
  exact (candidates_follow_the_scheme_map Scenario.before
           (candidate Scenario.reference Scenario.package)
           (or_intror (or_introl eq_refl))).
Defined.

Lemma substring_is_enough_witness :
  name_like Scenario.reference Scenario.package = true.
Proof.
  refine (proj1 (substring_is_enough Scenario.before
                   Scenario.reference Scenario.package _ eq_refl)).
  repeat constructor; discriminate.
Defined.

Lemma no_constraints_never_match_witness :
  @versionMatchesConstraints DecimalVersions.library "1.4.0" [] = (false, false).
Proof.
  exact (proj1 (@no_constraints_never_match DecimalVersions.library
                  no_faults Scenario.before) "1.4.0").
Defined.

Lemma versionMatchesConstraints_app_witness :
  @versionMatchesConstraints DecimalVersions.library "1.4.0"
    ([">=1.0.0"] ++ ["<1.5.0"]) = (true, true).
Proof.
  apply (@versionMatchesConstraints_app DecimalVersions.library
           "1.4.0" [">=1.0.0"] ["<1.5.0"]); discriminate.
Defined.

Lemma versionMatchesConstraints_Permutation_witness :
  @versionMatchesConstraints DecimalVersions.library "1.4.0" [">=1.0.0"; "<1.5.0"]
  = @versionMatchesConstraints DecimalVersions.library "1.4.0" ["<1.5.0"; ">=1.0.0"].
Proof.
  apply versionMatchesConstraints_Permutation. apply perm_swap.
Defined.

(** ** A match inside a result *)

Section FanOut.
Import shared.










End FanOut.


(** The mixed result, evaluated: three matches, the one of id 1 with the
    two paths of its rows that have one. *)
Example mixed_result_paths :
  match scanVulnerabilityMatchesAndCount
          (Ok (MixedScenario.rows_before ++ MixedScenario.rows_of_match
                 ++ MixedScenario.rows_after)) with
  | Ok (ms, c) =>
      map (fun m => (shared.ID m,
                     map shared.Path (shared.AffectedSymbols (shared.Package m)))) ms
      = [ (0, ["bar/parse.go"; "bar/walk.go"]);
          (1, ["bar/parse.go"; "bar/walk.go"]);
          (2, []) ]
  | Err _ => False
  end.
Proof. vm_compute. reflexivity. Qed.

